(** * Streaming Slides: playback sequencer, preview state machine,
      realtime services and liveness check

    A shallow embedding of
    - [SlideshowPreview.buildPlaybackSequence], [getValue], [handleCommand],
      [handleNext], [handlePrevious]            (pages/SlideshowPreview.tsx)
    - [shuffleArray]                             (lib/utils.ts)
    - [sendCommand], [subscribeToCommands]       (services/command.ts)
    - [broadcastStatus], [sendHeartbeat], [subscribeToStatus],
      [subscribeToHeartbeat]                     (services/status.ts)
    - the heartbeat watcher of [RemoteControl]   (pages/RemoteControl.tsx)

    JavaScript numbers that the code only ever uses as counters, indices,
    millisecond clocks and "every X slides" settings are integers ([Z] or
    [nat]); the settings form stores the frequency with [parseInt]. *)

From stdpp Require Import gmap strings list.
From Stdlib Require Import ZArith Lia.

Local Open Scope Z_scope.

(* ===================================================================== *)
(** ** Data model (types/index.ts)                                        *)
(* ===================================================================== *)

(** A settings field as it comes back from the PostgreSQL JSONB column:
    missing ([null]/[undefined]), a plain number, or an object carrying a
    [value] property (which may itself be nullish). *)
Inductive JsonNumber :=
| JMissing
| JPlain (n : Z)
| JBoxed (value : option Z).

Record StreamSettings := {
  duration        : JsonNumber;
  transition      : option string;
  transitionSpeed : option string;
  frequency       : JsonNumber;
}.

Record StreamItem := {
  item_id   : string;   (* id *)
  stream_id : string;
  item_type : string;   (* type: 'photo' | 'video' | 'custom' *)
  url       : string;   (* content.url *)
  order     : Z;
}.

(** [StreamWithItems]: [type] is compared against the literals
    'slideshow', 'single-photo' and 'video'. *)
Record StreamWithItems := {
  id       : string;
  type     : string;
  title    : string;
  settings : option StreamSettings;   (* StreamSettings | null *)
  items    : list StreamItem;
}.

(** [EnhancedStreamItem]: the item spread together with the settings and
    the type of the stream that owns it. *)
Record EnhancedStreamItem := {
  item           : StreamItem;
  streamSettings : option StreamSettings;
  streamType     : string;
}.

Definition enhance (stream : StreamWithItems) (i : StreamItem) : EnhancedStreamItem :=
  {| item := i; streamSettings := settings stream; streamType := type stream |}.

(* ===================================================================== *)
(** ** lib/utils.ts: shuffleArray                                         *)
(* ===================================================================== *)

Section Shuffle.
Context {T : Type}.

(** [randomIndex i] is the value of [Math.floor(Math.random() * (i + 1))]
    drawn in the loop round with index [i]. *)
Variable randomIndex : nat -> nat.

(** [[shuffled[i], shuffled[j]] = [shuffled[j], shuffled[i]]] *)
Definition swap (shuffled : list T) (i j : nat) : list T :=
  match shuffled !! i, shuffled !! j with
  | Some a, Some b => <[i := b]> (<[j := a]> shuffled)
  | _, _ => shuffled
  end.

(** [for (let i = shuffled.length - 1; i > 0; i--)] *)
Fixpoint shuffleLoop (i : nat) (shuffled : list T) : list T :=
  match i with
  | O => shuffled
  | S i' => shuffleLoop i' (swap shuffled i (randomIndex i))
  end.

Definition shuffleArray (array : list T) : list T :=
  shuffleLoop (length array - 1)%nat array.
End Shuffle.

(* ===================================================================== *)
(** ** pages/SlideshowPreview.tsx: the playback sequencer                 *)
(* ===================================================================== *)

(** [getValue(value, defaultValue)] followed by [Number(...)]. *)
Definition getValue (value : JsonNumber) (defaultValue : Z) : Z :=
  match value with
  | JMissing => defaultValue
  | JBoxed v => match v with Some n => n | None => defaultValue end
  | JPlain n => n
  end.

(** [stream.settings?.frequency] *)
Definition settingsFrequency (stream : StreamWithItems) : JsonNumber :=
  match settings stream with
  | Some s => frequency s
  | None => JMissing
  end.

(** [Number(getValue(stream.settings?.frequency, 5))] *)
Definition streamFrequency (stream : StreamWithItems) : Z :=
  getValue (settingsFrequency stream) 5.

Definition slideshowStreams (streams : list StreamWithItems) :=
  filter (fun s => type s = "slideshow") streams.
Definition singlePhotoStreams (streams : list StreamWithItems) :=
  filter (fun s => type s = "single-photo") streams.
Definition videoStreams (streams : list StreamWithItems) :=
  filter (fun s => type s = "video") streams.

(** [[...singlePhotoStreams, ...videoStreams]] *)
Definition frequencyStreams (streams : list StreamWithItems) :=
  singlePhotoStreams streams ++ videoStreams streams.

(** The [slideshowStreams.forEach] that collects the base sequence. *)
Definition collectBaseItems (streams : list StreamWithItems) : list EnhancedStreamItem :=
  fold_left (fun baseItems stream => baseItems ++ map (enhance stream) (items stream))
            (slideshowStreams streams) [].

(** The branch taken when there are no base items. *)
Definition allEnhancedItems (streams : list StreamWithItems) : list EnhancedStreamItem :=
  fold_left (fun acc stream =>
               fold_left (fun acc' i => acc' ++ [enhance stream i]) (items stream) acc)
            (frequencyStreams streams) [].

(** An entry of the [frequencyItems] array. *)
Record FrequencyItem := {
  fitem        : EnhancedStreamItem;   (* item *)
  ffrequency   : Z;                    (* frequency *)
  nextInsertAt : Z;
  itemIndex    : Z;
}.

(** The [frequencyStreams.forEach] that prepares the frequency items. *)
Definition prepareFrequencyItems (streams : list StreamWithItems) : list FrequencyItem :=
  fold_left
    (fun frequencyItems stream =>
       if (0 <? length (items stream))%nat then
         let frequency := streamFrequency stream in
         fold_left
           (fun acc i =>
              acc ++ [{| fitem := enhance stream i;
                         ffrequency := frequency;
                         nextInsertAt := frequency;
                         itemIndex := 0 |}])
           (items stream) frequencyItems
       else frequencyItems)
    (frequencyStreams streams) [].

(** State of the [while] loop: the counter, the output built so far and
    the (mutable) frequency items. *)
Record LoopState := {
  baseIndex      : nat;
  result         : list EnhancedStreamItem;
  frequencyItems : list FrequencyItem;
}.

(** One round of [frequencyItems.forEach] for one frequency item: [seen]
    collects the items already visited, in order. *)
Definition visitFrequencyItem (baseIndex : nat)
    (acc : list EnhancedStreamItem * list FrequencyItem) (freqItem : FrequencyItem)
  : list EnhancedStreamItem * list FrequencyItem :=
  let '(result, seen) := acc in
  if Z.of_nat baseIndex =? nextInsertAt freqItem then
    (result ++ [fitem freqItem],
     seen ++ [{| fitem := fitem freqItem;
                 ffrequency := ffrequency freqItem;
                 nextInsertAt := nextInsertAt freqItem + ffrequency freqItem;
                 itemIndex := itemIndex freqItem |}])
  else (result, seen ++ [freqItem]).

(** The body of the [while] loop, for the base item read at [baseIndex]. *)
Definition loopBody (b : EnhancedStreamItem) (st : LoopState) : LoopState :=
  let result1 := result st ++ [b] in
  let baseIndex1 := S (baseIndex st) in
  let '(result2, freq2) :=
    fold_left (visitFrequencyItem baseIndex1) (frequencyItems st) (result1, []) in
  {| baseIndex := baseIndex1; result := result2; frequencyItems := freq2 |}.

(** [while (baseIndex < baseItems.length) { ... }].  [None] means that the
    fuel ran out while the loop condition still held. *)
Fixpoint whileLoop (fuel : nat) (baseItems : list EnhancedStreamItem) (st : LoopState)
  : option LoopState :=
  if (baseIndex st <? length baseItems)%nat then
    match fuel with
    | O => None
    | S fuel' =>
        match baseItems !! baseIndex st with
        | Some b => whileLoop fuel' baseItems (loopBody b st)
        | None => None
        end
    end
  else Some st.

Section Sequencer.
Variable randomIndex : nat -> nat.

(** [baseItems] as it stands when the insertion starts: collected, then
    shuffled if [shuffle] is set and there is something to shuffle. *)
Definition baseSequence (streams : list StreamWithItems) (shuffle : bool)
  : list EnhancedStreamItem :=
  let baseItems := collectBaseItems streams in
  if shuffle && (0 <? length baseItems)%nat
  then shuffleArray randomIndex baseItems
  else baseItems.

Definition buildPlaybackSequence (fuel : nat)
    (streams : list StreamWithItems) (shuffle : bool)
  : option (list EnhancedStreamItem) :=
  let baseItems := baseSequence streams shuffle in
  if (length baseItems =? 0)%nat then Some (allEnhancedItems streams)
  else
    result <$>
      whileLoop fuel baseItems
        {| baseIndex := 0;
           result := [];
           frequencyItems := prepareFrequencyItems streams |}.
End Sequencer.

(** *** Reading the sequencer: what it is meant to produce *)

(** A frequency [F] makes an item due right after the [k]-th base item
    when [k] is a positive multiple of [F]. *)
Definition dueAt (F k : Z) : Prop := 0 < F /\ k mod F = 0.

#[global] Instance dueAt_dec (F k : Z) : Decision (dueAt F k).
Proof. unfold dueAt. apply _. Defined.

(** The interstitial items due right after the [k]-th base item, in
    stream-then-item order. *)
Definition dueItems (streams : list StreamWithItems) (k : nat) : list EnhancedStreamItem :=
  flat_map (fun s => if decide (dueAt (streamFrequency s) (Z.of_nat k))
                     then map (enhance s) (items s) else [])
           (frequencyStreams streams).

(** Walk the base items left to right, [k] of them being already emitted:
    each base item is followed by the items due at its position. *)
Fixpoint interleave (streams : list StreamWithItems) (k : nat)
    (rest : list EnhancedStreamItem) : list EnhancedStreamItem :=
  match rest with
  | [] => []
  | b :: rest' => b :: dueItems streams (S k) ++ interleave streams (S k) rest'
  end.

(** Total number of primary-stream items. *)
Definition primaryCount (streams : list StreamWithItems) : nat :=
  sum_list (map (fun s => length (items s)) (slideshowStreams streams)).

(** The stream frequency of every interstitial item, one entry per item. *)
Definition interstitialFrequencies (streams : list StreamWithItems) : list Z :=
  flat_map (fun s => map (fun _ => streamFrequency s) (items s)) (frequencyStreams streams).

Definition sumZ (l : list Z) : Z := foldr Z.add 0 l.

(** "Insert at every position": every base item followed by all of [ins]. *)
Definition insertAtEveryPosition (base ins : list EnhancedStreamItem)
  : list EnhancedStreamItem :=
  flat_map (fun b => b :: ins) base.

(** Where a frequency item's [nextInsertAt] stands once [k] base items
    have been emitted. *)
Definition scheduled (F : Z) (k : nat) : Z :=
  if 0 <? F then F * (Z.of_nat k / F + 1) else F.

Definition reschedule (k : nat) (fi : FrequencyItem) : FrequencyItem :=
  {| fitem := fitem fi;
     ffrequency := ffrequency fi;
     nextInsertAt := scheduled (ffrequency fi) k;
     itemIndex := itemIndex fi |}.

Definition frequencyItemOf (s : StreamWithItems) (i : StreamItem) : FrequencyItem :=
  {| fitem := enhance s i;
     ffrequency := streamFrequency s;
     nextInsertAt := streamFrequency s;
     itemIndex := 0 |}.

(** How many times an item of frequency [F] has been inserted once [n]
    base items have been emitted. *)
Definition insertions (F : Z) (n : nat) : Z :=
  if 0 <? F then Z.of_nat n / F else 0.

Definition totalInsertions (streams : list StreamWithItems) (n : nat) : Z :=
  sumZ (map (fun F => insertions F n) (interstitialFrequencies streams)).

(** The streams that can make a difference when primary items exist:
    every stream except the interstitial ones whose frequency is zero or
    negative. *)
Definition interstitial (s : StreamWithItems) : Prop :=
  type s = "single-photo" \/ type s = "video".

Definition usable (s : StreamWithItems) : Prop :=
  ~ (interstitial s /\ streamFrequency s <= 0).

#[global] Instance usable_dec (s : StreamWithItems) : Decision (usable s).
Proof. unfold usable, interstitial. apply _. Defined.

(** *** The stream set as the specification reads it

    The definitions of this part are written from the stream records
    alone: they use neither [getValue] nor the sequencer's own filters,
    so that a statement made with them says what is configured, not what
    the sequencer happens to read. *)

(** Modelled from the spec: a primary stream is a stream of kind
    [slideshow]; the interstitial kinds are [interstitial] above. *)
Definition primaryStream (s : StreamWithItems) : Prop := type s = "slideshow".

(** Modelled from the spec: the items of the primary streams, in stream
    order, then item order. *)
Definition primaryItems (streams : list StreamWithItems) : list StreamItem :=
  flat_map items (filter primaryStream streams).

(** Modelled from the spec: the frequency configured for a stream, an
    integer, 5 when none is configured.  The settings form stores the
    result of [parseInt], so a configured frequency is an integer. *)
Definition configuredFrequency (s : StreamWithItems) : Z :=
  match settings s with
  | Some st =>
      match frequency st with
      | JPlain F => F
      | JBoxed (Some F) => F
      | JBoxed None => 5
      | JMissing => 5
      end
  | None => 5
  end.

(** Modelled from the spec: the base items in order, the [k]-th of them
    followed by the items of [slot k]; [emitted] base items are already
    out. *)
Fixpoint withSlots (slot : nat -> list EnhancedStreamItem) (emitted : nat)
    (base : list EnhancedStreamItem) : list EnhancedStreamItem :=
  match base with
  | [] => []
  | b :: rest => b :: slot (S emitted) ++ withSlots slot (S emitted) rest
  end.

(** *** Sample stream sets *)

Definition photo (name : string) : StreamItem :=
  {| item_id := name; stream_id := "s"; item_type := "photo";
     url := "https://ik.example/" +:+ name; order := 0 |}.

Definition stream (ty : string) (freq : JsonNumber) (names : list string)
  : StreamWithItems :=
  {| id := ty; type := ty; title := ty;
     settings := Some {| duration := JMissing; transition := None;
                         transitionSpeed := None; frequency := freq |};
     items := map photo names |}.

Definition names (seq : option (list EnhancedStreamItem)) : option (list string) :=
  (fun l => map (fun e => item_id (item e)) l) <$> seq.

(** Twenty primary slides and one interstitial photo every five slides. *)
Definition twentyAndFive : list StreamWithItems :=
  [ stream "slideshow" JMissing
      ["1"; "2"; "3"; "4"; "5"; "6"; "7"; "8"; "9"; "10";
       "11"; "12"; "13"; "14"; "15"; "16"; "17"; "18"; "19"; "20"];
    stream "single-photo" (JPlain 5) ["X"] ].

(** Five primary slides and one interstitial photo every two slides. *)
Definition fiveAndTwo : list StreamWithItems :=
  [ stream "slideshow" JMissing ["A"; "B"; "C"; "D"; "E"];
    stream "single-photo" (JPlain 2) ["X"] ].

(** Six primary slides, a video every three slides and a photo every two
    (its frequency stored as an object with a [value] property). *)
Definition videoEveryThree : StreamWithItems := stream "video" (JPlain 3) ["V"].
Definition photoEveryTwo : StreamWithItems :=
  stream "single-photo" (JBoxed (Some 2)) ["X"].

Definition sixMixed : list StreamWithItems :=
  [ stream "slideshow" JMissing ["1"; "2"; "3"; "4"; "5"; "6"];
    videoEveryThree;
    photoEveryTwo ].

(** Five primary slides and one interstitial video every two slides. *)
Definition fiveAndVideo : list StreamWithItems :=
  [ stream "slideshow" JMissing ["A"; "B"; "C"; "D"; "E"];
    stream "video" (JPlain 2) ["V"] ].

(** Two primary slides and one interstitial photo with frequency 0. *)
Definition zeroStream : StreamWithItems := stream "single-photo" (JPlain 0) ["X"].

Definition zeroFrequency : list StreamWithItems :=
  [ stream "slideshow" JMissing ["A"; "B"]; zeroStream ].

(** A random source whose every draw is index 0. *)
Definition alwaysFirst : nat -> nat := fun _ => 0%nat.

(** Three loaded items, for the preview state machine. *)
Definition threeItems : list EnhancedStreamItem :=
  map (enhance (stream "slideshow" JMissing [])) [photo "A"; photo "B"; photo "C"].

(* ===================================================================== *)
(** ** pages/SlideshowPreview.tsx: the preview state machine              *)
(* ===================================================================== *)

Module Preview.

(** The part of [slideshow.settings] that the handlers read. *)
Record SlideshowSettings := {
  loop    : bool;
  shuffle : bool;
}.

(** [slideshow?.settings?.loop]; the slideshow is [null] until loaded. *)
Definition loopEnabled (slideshow : option SlideshowSettings) : bool :=
  match slideshow with
  | Some s => loop s
  | None => false
  end.

(** The three [useState] cells the handlers write. *)
Record PreviewState := {
  currentIndex  : Z;
  isPlaying     : bool;
  isBlackScreen : bool;
}.

Definition setCurrentIndex (i : Z) (st : PreviewState) : PreviewState :=
  {| currentIndex := i; isPlaying := isPlaying st; isBlackScreen := isBlackScreen st |}.
Definition setIsPlaying (b : bool) (st : PreviewState) : PreviewState :=
  {| currentIndex := currentIndex st; isPlaying := b; isBlackScreen := isBlackScreen st |}.
Definition setIsBlackScreen (b : bool) (st : PreviewState) : PreviewState :=
  {| currentIndex := currentIndex st; isPlaying := isPlaying st; isBlackScreen := b |}.

(** What a remote command does to the page: it updates the state, or
    ([reload]) it restarts the page through [window.location.reload()]. *)
Inductive Outcome :=
| Updated (st : PreviewState)
| Reloaded.

Definition handleCommand (allItems : list EnhancedStreamItem)
    (slideshow : option SlideshowSettings) (command : string) (st : PreviewState)
  : Outcome :=
  match command with
  | "next" =>
      let prev := currentIndex st in
      let nextIndex := prev + 1 in
      if nextIndex >=? Z.of_nat (length allItems) then
        if loopEnabled slideshow then Updated (setCurrentIndex 0 st)
        else Updated (setCurrentIndex prev (setIsPlaying false st))
      else Updated (setCurrentIndex nextIndex st)
  | "previous" =>
      let prev := currentIndex st in
      let prevIndex := prev - 1 in
      Updated (setCurrentIndex
                 (if prevIndex <? 0 then Z.of_nat (length allItems) - 1 else prevIndex) st)
  | "play" => Updated (setIsPlaying true st)
  | "pause" => Updated (setIsPlaying false st)
  | "reload" => Reloaded
  | "black-screen" => Updated (setIsBlackScreen true st)
  | "show-screen" => Updated (setIsBlackScreen false st)
  | _ => Updated st
  end.

(** The local helpers behind the keyboard, the buttons, the timer and
    the media events. *)
Definition handleNext (allItems : list EnhancedStreamItem)
    (slideshow : option SlideshowSettings) (st : PreviewState) : PreviewState :=
  if (length allItems =? 0)%nat then st
  else
    let nextIndex := currentIndex st + 1 in
    if nextIndex >=? Z.of_nat (length allItems) then
      if loopEnabled slideshow then setCurrentIndex 0 st
      else setIsPlaying false st
    else setCurrentIndex nextIndex st.

Definition handlePrevious (allItems : list EnhancedStreamItem) (st : PreviewState)
  : PreviewState :=
  if (length allItems =? 0)%nat then st
  else
    let prevIndex := currentIndex st - 1 in
    if prevIndex <? 0 then setCurrentIndex (Z.of_nat (length allItems) - 1) st
    else setCurrentIndex prevIndex st.

(** The index points at an item of the list. *)
Definition indexInRange (allItems : list EnhancedStreamItem) (st : PreviewState) : Prop :=
  0 <= currentIndex st < Z.of_nat (length allItems).

Definition outcomeInRange (allItems : list EnhancedStreamItem) (o : Outcome) : Prop :=
  match o with
  | Updated st => indexInRange allItems st
  | Reloaded => False
  end.

End Preview.

(* ===================================================================== *)
(** ** pages/RemoteControl.tsx: the heartbeat watcher                     *)
(* ===================================================================== *)

Module RemoteControl.

Record ControllerState := {
  lastHeartbeat   : option Z;   (* useState<number | null>(null) *)
  isPreviewActive : bool;       (* useState(false) *)
}.

Definition initialState : ControllerState :=
  {| lastHeartbeat := None; isPreviewActive := false |}.

(** The [subscribeToHeartbeat] callback: it receives the [timestamp]
    field of the heartbeat payload. *)
Definition onHeartbeat (timestamp : Z) (st : ControllerState) : ControllerState :=
  {| lastHeartbeat := Some timestamp; isPreviewActive := true |}.

(** The [setInterval] callback, run at controller time [now].
    [if (lastHeartbeat)] is false for [null] and for [0]. *)
Definition onPollTick (now : Z) (st : ControllerState) : ControllerState :=
  match lastHeartbeat st with
  | Some ts =>
      if ts =? 0 then st
      else
        let timeSinceHeartbeat := now - ts in
        {| lastHeartbeat := lastHeartbeat st;
           isPreviewActive := timeSinceHeartbeat <? 10000 |}
  | None => st
  end.

(** What happens on the controller, with the controller's clock: a
    heartbeat that carries [timestamp] arrives at [receivedAt], or the
    poll interval fires at [now]. *)
Inductive Event :=
| HeartbeatReceived (receivedAt : Z) (timestamp : Z)
| PollTick (now : Z).

Definition step (st : ControllerState) (ev : Event) : ControllerState :=
  match ev with
  | HeartbeatReceived _ timestamp => onHeartbeat timestamp st
  | PollTick now => onPollTick now st
  end.

Definition run (st : ControllerState) (evs : list Event) : ControllerState :=
  fold_left step evs st.

(** The first [n] firings of [setInterval(..., 1000)] armed at [start]. *)
Definition pollTicks (start : Z) (n : nat) : list Event :=
  map (fun i => PollTick (start + 1000 * Z.of_nat i)) (seq 1 n).

Definition isPollTick (ev : Event) : Prop :=
  match ev with
  | PollTick _ => True
  | HeartbeatReceived _ _ => False
  end.

(** When the most recent heartbeat was received, if any. *)
Definition lastReceipt (evs : list Event) : option Z :=
  fold_left (fun acc ev => match ev with
                           | HeartbeatReceived receivedAt _ => Some receivedAt
                           | PollTick _ => acc
                           end) evs None.

End RemoteControl.

(* ===================================================================== *)
(** ** services/command.ts and services/status.ts                         *)
(* ===================================================================== *)

Module Realtime.

(** [RealtimeChannel.state] of the relay client. *)
Inductive ChannelState := closed | errored | joined | joining | leaving.

#[global] Instance ChannelState_eq_dec : EqDecision ChannelState.
Proof. solve_decision. Defined.

(** The statuses the relay client passes to a [subscribe] callback. *)
Inductive SubscribeStatus := SUBSCRIBED | TIMED_OUT | CLOSED | CHANNEL_ERROR.

Definition statusName (status : SubscribeStatus) : string :=
  match status with
  | SUBSCRIBED => "SUBSCRIBED"
  | TIMED_OUT => "TIMED_OUT"
  | CLOSED => "CLOSED"
  | CHANNEL_ERROR => "CHANNEL_ERROR"
  end.

(** A channel handle: [handle] tells two objects made for the same
    topic apart. *)
Record RealtimeChannel := {
  handle        : nat;
  topic         : string;
  broadcastSelf : bool;      (* config.broadcast.self *)
  state         : ChannelState;
}.

Definition withState (s : ChannelState) (channel : RealtimeChannel) : RealtimeChannel :=
  {| handle := handle channel; topic := topic channel;
     broadcastSelf := broadcastSelf channel; state := s |}.

Record PreviewStatus := {
  slideshow_id         : string;
  is_playing           : bool;
  is_black_screen      : bool;
  current_stream_index : Z;
  current_item_index   : Z;
}.

Inductive Payload :=
| CommandPayload (command : string) (payload : option string) (timestamp : Z)
| StatusPayload (status : PreviewStatus) (timestamp : Z)
| HeartbeatPayload (timestamp : Z).

(** What a service call does to the outside world, in order. *)
Inductive Effect :=
| DbInsert (table slideshowId command : string) (payload : option string)
           (timestamp : Z)
| ConsoleError (message detail : string)
| CreateChannel (h : nat) (name : string) (self : bool)  (* supabase.channel(name, config) *)
| On (h : nat) (name : string) (event : string)   (* channel.on('broadcast', {event}, ...) *)
| Subscribe (h : nat) (name : string)
| Unsubscribe (h : nat) (name : string)
| Send (h : nat) (name : string) (event : string) (payload : Payload).

(** The three module-level caches, and the supply of fresh handles. *)
Record World := {
  commandChannels   : gmap string RealtimeChannel;
  statusChannels    : gmap string RealtimeChannel;
  heartbeatChannels : gmap string RealtimeChannel;
  nextHandle        : nat;
}.

Definition emptyWorld : World :=
  {| commandChannels := ∅; statusChannels := ∅; heartbeatChannels := ∅;
     nextHandle := 0 |}.

(** Which of the three caches a piece of code works on. *)
Inductive Cache := CommandCache | StatusCache | HeartbeatCache.

Definition cacheOf (c : Cache) (w : World) : gmap string RealtimeChannel :=
  match c with
  | CommandCache => commandChannels w
  | StatusCache => statusChannels w
  | HeartbeatCache => heartbeatChannels w
  end.

Definition setCache (c : Cache) (m : gmap string RealtimeChannel) (w : World) : World :=
  match c with
  | CommandCache =>
      {| commandChannels := m; statusChannels := statusChannels w;
         heartbeatChannels := heartbeatChannels w; nextHandle := nextHandle w |}
  | StatusCache =>
      {| commandChannels := commandChannels w; statusChannels := m;
         heartbeatChannels := heartbeatChannels w; nextHandle := nextHandle w |}
  | HeartbeatCache =>
      {| commandChannels := commandChannels w; statusChannels := statusChannels w;
         heartbeatChannels := m; nextHandle := nextHandle w |}
  end.

Definition freshHandle (w : World) : World :=
  {| commandChannels := commandChannels w; statusChannels := statusChannels w;
     heartbeatChannels := heartbeatChannels w; nextHandle := S (nextHandle w) |}.

(** *** A state-and-trace monad for the service calls *)

Definition M (A : Type) : Type := World -> A * World * list Effect.

Definition ret {A} (a : A) : M A := fun w => (a, w, []).

Definition bind {A B} (m : M A) (k : A -> M B) : M B :=
  fun w =>
    let '(a, w1, t1) := m w in
    let '(b, w2, t2) := k a w1 in
    (b, w2, t1 ++ t2).

Definition emit (e : Effect) : M unit := fun w => (tt, w, [e]).
Definition getWorld : M World := fun w => (w, w, []).
Definition modify (f : World -> World) : M unit := fun w => (tt, f w, []).

Declare Scope svc_scope.
Delimit Scope svc_scope with svc.
Notation "'let*' x := m 'in' k" := (bind m (fun x => k))
  (at level 10, x name, m at level 100, k at level 200) : svc_scope.
Local Open Scope svc_scope.

Definition cacheGet (c : Cache) (key : string) : M (option RealtimeChannel) :=
  let* w := getWorld in ret (cacheOf c w !! key).
Definition cacheSet (c : Cache) (key : string) (channel : RealtimeChannel) : M unit :=
  modify (fun w => setCache c (<[key := channel]> (cacheOf c w)) w).
Definition cacheDelete (c : Cache) (key : string) : M unit :=
  modify (fun w => setCache c (delete key (cacheOf c w)) w).

(** [supabase.channel(channelName, { config: { broadcast: { self } } })] *)
Definition supabaseChannel (channelName : string) (self : bool) : M RealtimeChannel :=
  let* w := getWorld in
  let channel := {| handle := nextHandle w; topic := channelName;
                    broadcastSelf := self; state := closed |} in
  let* _ := modify freshHandle in
  let* _ := emit (CreateChannel (handle channel) channelName self) in
  ret channel.

(** *** Topic names *)

Definition commandChannelName (slideshowId : string) : string :=
  "slideshow:" +:+ slideshowId +:+ ":commands".
Definition statusChannelName (slideshowId : string) : string :=
  "slideshow:" +:+ slideshowId +:+ ":status".
Definition heartbeatChannelName (slideshowId : string) : string :=
  "slideshow:" +:+ slideshowId +:+ ":heartbeat".

(** *** Get-or-create *)

Definition getCommandChannel (slideshowId : string) : M RealtimeChannel :=
  let channelName := commandChannelName slideshowId in
  let* cached := cacheGet CommandCache channelName in
  match cached with
  | Some channel => ret channel
  | None =>
      let* channel := supabaseChannel channelName true in
      let* _ := cacheSet CommandCache channelName channel in
      ret channel
  end.

Definition getStatusChannel (slideshowId : string) : M RealtimeChannel :=
  let channelName := statusChannelName slideshowId in
  let* cached := cacheGet StatusCache channelName in
  match cached with
  | Some channel => ret channel
  | None =>
      let* channel := supabaseChannel channelName false in
      let* _ := cacheSet StatusCache channelName channel in
      ret channel
  end.

Definition getHeartbeatChannel (slideshowId : string) : M RealtimeChannel :=
  let channelName := heartbeatChannelName slideshowId in
  let* cached := cacheGet HeartbeatCache channelName in
  match cached with
  | Some channel => ret channel
  | None =>
      let* channel := supabaseChannel channelName false in
      let* _ := cacheSet HeartbeatCache channelName channel in
      ret channel
  end.

(** *** Publishing *)

(** What the relay answers to [channel.subscribe(callback)]: the first
    status it passes to the callback and how many milliseconds after the
    call, or nothing at all.  A status that comes at 5000 ms or later
    finds the publisher's timer already fired. *)
Inductive Handshake :=
| NoAnswer
| Answer (after : Z) (status : SubscribeStatus).

Inductive Settled :=
| Resolved
| Rejected (message : string).

(** The relay client moves the handle cached under [key] to state [s]. *)
Definition relayState (c : Cache) (key : string) (s : ChannelState) : M unit :=
  modify (fun w => setCache c (alter (withState s) key (cacheOf c w)) w).

(** The promise that the three publishers await when the channel is
    not joined:
    [setTimeout(() => reject(new Error(timeoutMessage)), 5000)] races
    the [subscribe] callback.  The three copies differ in the cache, in
    the key they delete and in the two messages. *)
Definition awaitSubscribed (c : Cache) (key timeoutMessage failureMessage : string)
    (channel : RealtimeChannel) (answer : Handshake) : M Settled :=
  let* _ := emit (Subscribe (handle channel) (topic channel)) in
  let* _ := relayState c key joining in
  match answer with
  | Answer after status =>
      if after <? 5000 then
        match status with
        | SUBSCRIBED =>
            let* _ := relayState c key joined in
            ret Resolved
        | TIMED_OUT | CLOSED | CHANNEL_ERROR =>
            let* _ := cacheDelete c key in
            ret (Rejected (failureMessage +:+ statusName status))
        end
      else ret (Rejected timeoutMessage)
  | NoAnswer => ret (Rejected timeoutMessage)
  end.

(** [sendCommand]: [dbError] is the [error] field of the insert's
    answer, [insertedAt] and [sentAt] are the two clock readings. *)
Definition sendCommand (slideshowId command : string) (payload : option string)
    (insertedAt sentAt : Z) (dbError : option string) (answer : Handshake)
  : M (unit + string) :=
  let* _ := emit (DbInsert "slideshow_commands" slideshowId command payload insertedAt) in
  let* _ := match dbError with
            | Some err => emit (ConsoleError "Failed to save command to database:" err)
            | None => ret tt
            end in
  let* channel := getCommandChannel slideshowId in
  let* settled :=
    if decide (state channel = joined) then ret Resolved
    else awaitSubscribed CommandCache (commandChannelName slideshowId)
           "Channel subscription timeout" "Channel subscription failed: "
           channel answer in
  match settled with
  | Resolved =>
      let* _ := emit (Send (handle channel) (topic channel) "command"
                           (CommandPayload command payload sentAt)) in
      ret (inl tt)
  | Rejected message => ret (inr message)
  end.

Definition broadcastStatus (slideshowId : string) (status : PreviewStatus)
    (sentAt : Z) (answer : Handshake) : M (unit + string) :=
  let* channel := getStatusChannel slideshowId in
  let* settled :=
    if decide (state channel = joined) then ret Resolved
    else awaitSubscribed StatusCache (statusChannelName slideshowId)
           "Status channel subscription timeout"
           "Status channel subscription failed: "
           channel answer in
  match settled with
  | Resolved =>
      let* _ := emit (Send (handle channel) (topic channel) "status"
                           (StatusPayload status sentAt)) in
      ret (inl tt)
  | Rejected message => ret (inr message)
  end.

Definition sendHeartbeat (slideshowId : string) (sentAt : Z) (answer : Handshake)
  : M (unit + string) :=
  let* channel := getHeartbeatChannel slideshowId in
  let* settled :=
    if decide (state channel = joined) then ret Resolved
    else awaitSubscribed HeartbeatCache (heartbeatChannelName slideshowId)
           "Heartbeat channel subscription timeout"
           "Heartbeat channel subscription failed: "
           channel answer in
  match settled with
  | Resolved =>
      let* _ := emit (Send (handle channel) (topic channel) "heartbeat"
                           (HeartbeatPayload sentAt)) in
      ret (inl tt)
  | Rejected message => ret (inr message)
  end.

(** *** Subscribing *)

(** The callback the three subscribers pass to [channel.subscribe]; the
    callback of a publisher does the same to the cache when a status
    reaches it after its promise has settled. *)
Definition subscriptionStatus (c : Cache) (channelName : string)
    (status : SubscribeStatus) : M unit :=
  match status with
  | SUBSCRIBED => relayState c channelName joined
  | TIMED_OUT | CLOSED | CHANNEL_ERROR => cacheDelete c channelName
  end.

(** Each subscriber returns its own unsubscribe function. *)
Definition subscribeToCommands (slideshowId : string) : M (M unit) :=
  let channelName := commandChannelName slideshowId in
  let* existingChannel := cacheGet CommandCache channelName in
  let* _ := match existingChannel with
            | Some existing =>
                let* _ := emit (Unsubscribe (handle existing) (topic existing)) in
                cacheDelete CommandCache channelName
            | None => ret tt
            end in
  let* channel := getCommandChannel slideshowId in
  let* _ := emit (On (handle channel) (topic channel) "command") in
  let* _ := emit (Subscribe (handle channel) (topic channel)) in
  let* _ := relayState CommandCache channelName joining in
  ret (let* _ := emit (Unsubscribe (handle channel) (topic channel)) in
       cacheDelete CommandCache channelName).

Definition subscribeToStatus (slideshowId : string) : M (M unit) :=
  let channelName := statusChannelName slideshowId in
  let* existingChannel := cacheGet StatusCache channelName in
  let* _ := match existingChannel with
            | Some existing =>
                let* _ := emit (Unsubscribe (handle existing) (topic existing)) in
                cacheDelete StatusCache channelName
            | None => ret tt
            end in
  let* channel := getStatusChannel slideshowId in
  let* _ := emit (On (handle channel) (topic channel) "status") in
  let* _ := emit (Subscribe (handle channel) (topic channel)) in
  let* _ := relayState StatusCache channelName joining in
  ret (let* _ := emit (Unsubscribe (handle channel) (topic channel)) in
       cacheDelete StatusCache channelName).

Definition subscribeToHeartbeat (slideshowId : string) : M (M unit) :=
  let channelName := heartbeatChannelName slideshowId in
  let* existingChannel := cacheGet HeartbeatCache channelName in
  let* _ := match existingChannel with
            | Some existing =>
                let* _ := emit (Unsubscribe (handle existing) (topic existing)) in
                cacheDelete HeartbeatCache channelName
            | None => ret tt
            end in
  let* channel := getHeartbeatChannel slideshowId in
  let* _ := emit (On (handle channel) (topic channel) "heartbeat") in
  let* _ := emit (Subscribe (handle channel) (topic channel)) in
  let* _ := relayState HeartbeatCache channelName joining in
  ret (let* _ := emit (Unsubscribe (handle channel) (topic channel)) in
       cacheDelete HeartbeatCache channelName).

(** *** Reading a trace *)

(** The effect works on topic [name], and names [event] if it names an
    event at all. *)
Definition onTopic (name event : string) (e : Effect) : Prop :=
  match e with
  | DbInsert _ _ _ _ _ | ConsoleError _ _ => True
  | CreateChannel _ n _ | Subscribe _ n | Unsubscribe _ n => n = name
  | On _ n ev | Send _ n ev _ => n = name /\ ev = event
  end.

(** Every cached handle sits under its own topic name. *)
Definition cacheKeyed (w : World) : Prop :=
  forall c key channel, cacheOf c w !! key = Some channel -> topic channel = key.

Definition traceOf {A} (r : A * World * list Effect) : list Effect := snd r.
Definition worldOf {A} (r : A * World * list Effect) : World := snd (fst r).
Definition valueOf {A} (r : A * World * list Effect) : A := fst (fst r).

Definition isSend (e : Effect) : bool :=
  match e with Send _ _ _ _ => true | _ => false end.
(** What the join handshake of a publisher does with a cached handle
    that is not joined, for each answer of the relay: the subscription
    precedes any broadcast, and then the call resolves, fails with
    eviction, or fails on the timer with the handle still cached. *)
Definition handshakeOutcome (c : Cache) (key timeoutMessage failureMessage : string)
    (channel : RealtimeChannel) (answer : Handshake)
    (r : (unit + string) * World * list Effect) : Prop :=
  (exists before after,
      traceOf r = before ++ Subscribe (handle channel) key :: after /\
      Forall (fun e => isSend e = false) before) /\
  match answer with
  | Answer after SUBSCRIBED =>
      if after <? 5000 then
        valueOf r = inl tt /\
        cacheOf c (worldOf r) !! key = Some (withState joined channel)
      else
        valueOf r = inr timeoutMessage /\
        cacheOf c (worldOf r) !! key = Some (withState joining channel)
  | Answer after status =>
      if after <? 5000 then
        valueOf r = inr (failureMessage +:+ statusName status) /\
        cacheOf c (worldOf r) !! key = None
      else
        valueOf r = inr timeoutMessage /\
        cacheOf c (worldOf r) !! key = Some (withState joining channel)
  | NoAnswer =>
      valueOf r = inr timeoutMessage /\
      cacheOf c (worldOf r) !! key = Some (withState joining channel)
  end.

End Realtime.

(** The topic name as the relay convention would spell it with a
    [session:] prefix, for comparison. *)
Definition sessionTopic (sessionId suffix : string) : string :=
  "session:" +:+ sessionId +:+ ":" +:+ suffix.

(** *** Sample service runs *)

Module Scenario.
Import Realtime.

Definition playing : PreviewStatus :=
  {| slideshow_id := "show"; is_playing := true; is_black_screen := false;
     current_stream_index := 0; current_item_index := 3 |}.

(** The relay never answers the join: the 5-second timer fires. *)
Definition command1 := sendCommand "show" "next" None 1000 1001 None NoAnswer emptyWorld.
(** The next command finds the handle that [command1] left behind. *)
Definition command2 :=
  sendCommand "show" "next" None 7000 7001 None NoAnswer (worldOf command1).
(** The relay reports an error instead. *)
Definition command3 :=
  sendCommand "show" "next" None 7000 7001 None (Answer 200 CHANNEL_ERROR)
              (worldOf command1).
Definition command4 :=
  sendCommand "show" "next" None 9000 9001 None (Answer 200 SUBSCRIBED)
              (worldOf command3).

Definition status1 := broadcastStatus "show" playing 1000 NoAnswer emptyWorld.
Definition status2 := broadcastStatus "show" playing 7000 NoAnswer (worldOf status1).

Definition heartbeat1 := sendHeartbeat "show" 1000 NoAnswer emptyWorld.
Definition heartbeat2 := sendHeartbeat "show" 6000 NoAnswer (worldOf heartbeat1).
End Scenario.

(* ===================================================================== *)
(** ** Further readings of the sequencer, the preview and the watcher     *)
(* ===================================================================== *)

(** What [Math.floor(Math.random() * (i + 1))] guarantees of a draw. *)
Definition drawsInRange (randomIndex : nat -> nat) : Prop :=
  forall i, (randomIndex i <= i)%nat.

(** An output item that comes from a primary stream. *)
Definition primary (e : EnhancedStreamItem) : Prop := streamType e = "slideshow".

(** The output with its primary items blanked out: what is left shows
    where the interstitial items sit. *)
Definition maskPrimary (seq : list EnhancedStreamItem)
  : list (option EnhancedStreamItem) :=
  map (fun e => if decide (primary e) then None else Some e) seq.

(** The item is one of the stream set's items, and the settings and the
    type it carries are those of the stream that owns it. *)
Definition fromStreams (streams : list StreamWithItems) (e : EnhancedStreamItem) : Prop :=
  exists s, s ∈ streams /\ item e ∈ items s /\
            streamSettings e = settings s /\ streamType e = type s.

(** The timestamp of the most recent heartbeat of a history. *)
Definition lastTimestamp (evs : list RemoteControl.Event) : option Z :=
  fold_left (fun acc ev => match ev with
                           | RemoteControl.HeartbeatReceived _ timestamp => Some timestamp
                           | RemoteControl.PollTick _ => acc
                           end) evs None.

(** What the controller shows after a history, read off its last event
    and its last heartbeat. *)
Definition reported (evs : list RemoteControl.Event) : bool :=
  match last evs with
  | None => false
  | Some (RemoteControl.HeartbeatReceived _ _) => true
  | Some (RemoteControl.PollTick now) =>
      match lastTimestamp evs with
      | Some timestamp => now - timestamp <? 10000
      | None => false
      end
  end.

Definition stamped (ev : RemoteControl.Event) : Prop :=
  match ev with
  | RemoteControl.HeartbeatReceived _ timestamp => timestamp <> 0
  | RemoteControl.PollTick _ => True
  end.

(** Two primary slides, a photo every two slides and a video every three. *)
Definition twoAndLate : list StreamWithItems :=
  [ stream "slideshow" JMissing ["A"; "B"];
    stream "single-photo" (JPlain 2) ["X"];
    stream "video" (JPlain 3) ["V"] ].

(* ===================================================================== *)
(** ** pages/SlideshowPreview.tsx: local controls and the advance timer   *)
(* ===================================================================== *)

Module Player.
Import Preview.

Definition handlePlayPause (st : PreviewState) : PreviewState :=
  setIsPlaying (negb (isPlaying st)) st.

(** [handleVideoEnded], and the [onError] handlers of the media elements. *)
Definition handleVideoEnded (allItems : list EnhancedStreamItem)
    (slideshow : option SlideshowSettings) (st : PreviewState) : PreviewState :=
  handleNext allItems slideshow st.

(** The [keydown] listener. *)
Definition handleKeyPress (allItems : list EnhancedStreamItem)
    (slideshow : option SlideshowSettings) (key : string) (st : PreviewState)
  : PreviewState :=
  match key with
  | "ArrowRight" => handleNext allItems slideshow st
  | "ArrowLeft" => handlePrevious allItems st
  | " " => handlePlayPause st
  | _ => st
  end.

(** [allItems[currentIndex]]: [undefined] outside the array. *)
Definition currentItem (allItems : list EnhancedStreamItem) (st : PreviewState)
  : option EnhancedStreamItem :=
  if currentIndex st <? 0 then None else allItems !! Z.to_nat (currentIndex st).

(** [currentItem.streamSettings?.duration] *)
Definition itemDuration (e : EnhancedStreamItem) : JsonNumber :=
  match streamSettings e with
  | Some s => duration s
  | None => JMissing
  end.

(** The auto-advance effect: the delay in milliseconds of the timer it
    arms, if it arms one.  [defaultDuration] is
    [slideshow?.settings?.duration]; the timer runs [handleNext]. *)
Definition autoAdvance (allItems : list EnhancedStreamItem)
    (defaultDuration : option Z) (st : PreviewState) : option Z :=
  if negb (isPlaying st) || isBlackScreen st then None
  else
    match currentItem allItems st with
    | None => None
    | Some current =>
        if decide (item_type (item current) = "video") then None
        else
          let fallback := match defaultDuration with
                          | Some d => if d =? 0 then 5 else d
                          | None => 5
                          end in
          Some (getValue (itemDuration current) fallback * 1000)
    end.

End Player.

(* ===================================================================== *)
(** ** Further readings of the realtime services                          *)
(* ===================================================================== *)

Module Channels.
Import Realtime.

(** The channel the effect creates, if it creates one, echoes the
    publisher's own messages exactly when [self] says so. *)
Definition createsWithSelf (self : bool) (e : Effect) : Prop :=
  match e with
  | CreateChannel _ _ s => s = self
  | _ => True
  end.

(** Every cache entry except the one under [name] in cache [c] is as it
    was. *)
Definition onlyTouches (c : Cache) (name : string) (before after : World) : Prop :=
  forall c' key, (c', key) <> (c, name) ->
                 cacheOf c' after !! key = cacheOf c' before !! key.

(** A subscriber's call: whatever was cached for the topic is
    unsubscribed, a new handle is created, listened on, subscribed and
    cached. *)
Definition freshSubscription (c : Cache) (name event : string) (self : bool)
    (w : World) (r : M unit * World * list Effect) : Prop :=
  let h := nextHandle w in
  cacheOf c (worldOf r) !! name =
    Some {| handle := h; topic := name; broadcastSelf := self; state := joining |} /\
  nextHandle (worldOf r) = S h /\
  traceOf r =
    match cacheOf c w !! name with
    | Some old => [Unsubscribe (handle old) (topic old)]
    | None => []
    end ++ [CreateChannel h name self; On h name event; Subscribe h name] /\
  onlyTouches c name w (worldOf r).

(** The unsubscribe function a subscriber returned for handle [h], called
    in any later state of the page. *)
Definition unsubscribes (c : Cache) (name : string) (h : nat) (unsubscribe : M unit)
  : Prop :=
  forall later,
    traceOf (unsubscribe later) = [Unsubscribe h name] /\
    cacheOf c (worldOf (unsubscribe later)) !! name = None /\
    onlyTouches c name later (worldOf (unsubscribe later)) /\
    nextHandle (worldOf (unsubscribe later)) = nextHandle later /\
    worldOf (unsubscribe (worldOf (unsubscribe later))) = worldOf (unsubscribe later).

(** The effects that reach the relay. *)
Definition onRelay (e : Effect) : bool :=
  match e with
  | DbInsert _ _ _ _ _ | ConsoleError _ _ => false
  | _ => true
  end.

(** A publish that finds its channel joined: one broadcast on the cached
    handle, nothing else on the relay, the caches as they were. *)
Definition immediate (name event : string) (before : World)
    (r : (unit + string) * World * list Effect) : Prop :=
  valueOf r = inl tt /\
  worldOf r = before /\
  exists h payload,
    filter (fun e => onRelay e = true) (traceOf r) = [Send h name event payload].

End Channels.

(* ===================================================================== *)
(** ** lib/utils.ts: debounce                                             *)
(* ===================================================================== *)

Module Debounce.

(** A delay as [setTimeout] takes it in a browser: the argument is read
    as a 32-bit signed integer, and a negative delay counts as 0. *)
Definition toInt32 (n : Z) : Z := (n + 2147483648) mod 4294967296 - 2147483648.

Definition timerDelay (wait : Z) : Z := Z.max 0 (toInt32 wait).

Section Debounced.
Context {Args : Type}.

(** The delay passed to [debounce(func, wait)], in whole milliseconds. *)
Variable wait : Z.

(** A call made at the very millisecond at which the pending timer is
    due: [timerFirst now] tells whether the event loop ran the timer
    before the call. *)
Variable timerFirst : Z -> bool.

(** The closure's [timeout] variable: [None] for [null], otherwise the
    pending timer, with the time it is due and the arguments that its
    [later] captured. *)
Definition Timer : Type := option (Z * Args).

(** Time passes up to a call at [now]: a timer that came due before runs
    [later], which clears [timeout] and calls [func].  The second
    component lists the calls of [func], when and with what. *)
Definition elapse (now : Z) (timeout : Timer) : Timer * list (Z * Args) :=
  match timeout with
  | Some (due, args) =>
      if (due <? now) || ((due =? now) && timerFirst now)
      then (None, [(due, args)])
      else (timeout, [])
  | None => (None, [])
  end.

(** [executedFunction(...args)] at time [now]:
    [if (timeout) clearTimeout(timeout); timeout = setTimeout(later, wait)]. *)
Definition executedFunction (now : Z) (args : Args) (timeout : Timer) : Timer :=
  Some (now + timerDelay wait, args).

(** The debounced function is called at the given times, and then left
    alone until a pending timer has fired. *)
Fixpoint runCalls (calls : list (Z * Args)) (timeout : Timer) : list (Z * Args) :=
  match calls with
  | [] => match timeout with
          | Some pending => [pending]
          | None => []
          end
  | (now, args) :: rest =>
      let '(timeout1, fired) := elapse now timeout in
      fired ++ runCalls rest (executedFunction now args timeout1)
  end.

Definition debounce (calls : list (Z * Args)) : list (Z * Args) :=
  runCalls calls None.

(** Every call carried out, [wait] later. *)
Definition delayed (calls : list (Z * Args)) : list (Z * Args) :=
  map (fun call => (fst call + wait, snd call)) calls.

(** Consecutive calls are related by [R] in their times. *)
Fixpoint spaced (R : Z -> Z -> Prop) (calls : list (Z * Args)) : Prop :=
  match calls with
  | call1 :: (call2 :: _) as rest => R (fst call1) (fst call2) /\ spaced R rest
  | _ => True
  end.

(** The next call comes while the timer of the one before is pending. *)
Definition within (t1 t2 : Z) : Prop :=
  t2 < t1 + wait \/ (t2 = t1 + wait /\ timerFirst t2 = false).

(** The next call comes when the timer of the one before has fired. *)
Definition apart (t1 t2 : Z) : Prop :=
  t1 + wait < t2 \/ (t2 = t1 + wait /\ timerFirst t2 = true).
End Debounced.
End Debounce.

(* ===================================================================== *)
(** ** services/stream.ts: deleteStream and reorderStreams                *)
(* ===================================================================== *)

Module Streams.

(** *** The [streams] table, as far as [reorderStreams] touches it *)

Record StreamRow := {
  slideshow_id : string;
  order : Z;
  updated_at : Z
}.

(** Rows by their primary key [id]. *)
Definition Table : Type := gmap string StreamRow.

(** [.update({ order, updated_at }).eq('id', id).eq('slideshow_id', slideshowId)]:
    the row with this id is changed if it belongs to the slideshow; a
    request that matches no row changes nothing and is no error. *)
Definition updateOrder (slideshowId id : string) (newOrder updatedAt : Z)
    (table : Table) : Table :=
  match table !! id with
  | Some row =>
      if decide (slideshow_id row = slideshowId)
      then <[id := {| slideshow_id := slideshow_id row;
                      order := newOrder;
                      updated_at := updatedAt |}]> table
      else table
  | None => table
  end.

Record Update := {
  update_id : string;
  update_order : Z;
  update_updated_at : Z
}.

(** [streamIds.map((id, index) => ({ id, order: index, updated_at }))];
    [now index] is the clock when the entry at [index] is built. *)
Definition updatesOf (now : nat -> Z) (streamIds : list string) : list Update :=
  imap (fun index id => {| update_id := id;
                           update_order := Z.of_nat index;
                           update_updated_at := now index |}) streamIds.

(** The [for] loop.  [failure u] is the error, if any, that the request
    for [u] comes back with; a failed request changes nothing, and the
    loop ends there by [throw error]. *)
Fixpoint reorderLoop (slideshowId : string) (failure : Update -> option string)
    (updates : list Update) (table : Table) : option string * Table :=
  match updates with
  | [] => (None, table)
  | update :: rest =>
      match failure update with
      | Some error => (Some error, table)
      | None =>
          reorderLoop slideshowId failure rest
            (updateOrder slideshowId (update_id update) (update_order update)
               (update_updated_at update) table)
      end
  end.

(** The first component is the error thrown, [None] when the promise
    resolves. *)
Definition reorderStreams (slideshowId : string) (streamIds : list string)
    (now : nat -> Z) (failure : Update -> option string) (table : Table)
    : option string * Table :=
  reorderLoop slideshowId failure (updatesOf now streamIds) table.

(** What a row is after reordering has put it at [index]. *)
Definition placed (now : nat -> Z) (index : nat) (row : StreamRow) : StreamRow :=
  {| slideshow_id := slideshow_id row;
     order := Z.of_nat index;
     updated_at := now index |}.

(** *** deleteStream *)





Inductive Effect :=
| SelectItems (streamId : string)
| DeleteStreamRow (id : string)
| DeleteFromImageKit (file : string)
| ConsoleLog (message : string)
| ConsoleError (message : string).




(** Streams [a], [b], [c] of the slideshow [show] in this order, and a
    stream [z] of another slideshow. *)
Definition sampleTable : Table :=
  list_to_map
    [ ("a", {| slideshow_id := "show"; order := 0; updated_at := 0 |});
      ("b", {| slideshow_id := "show"; order := 1; updated_at := 0 |});
      ("c", {| slideshow_id := "show"; order := 2; updated_at := 0 |});
      ("z", {| slideshow_id := "other"; order := 0; updated_at := 0 |}) ].

End Streams.

(* ===================================================================== *)
(** * Properties                                                          *)
(* ===================================================================== *)

(** ** The sequencer *)

(** Stepping the quotient: it grows by one exactly at the multiples. *)
Lemma div_succ (F k : Z) :
  0 < F -> 0 <= k ->
  (k + 1) / F = k / F + (if decide ((k + 1) mod F = 0) then 1 else 0).
Proof.
  intros HF Hk.
  pose proof (Z.div_mod k F ltac:(lia)) as Hdm.
  pose proof (Z.mod_pos_bound k F HF) as Hb.
  destruct (decide ((k + 1) mod F = 0)) as [H0 | Hn].
  - symmetry. apply (Z.div_unique_pos (k + 1) F (k / F + 1) 0); [lia |].
    pose proof (Z.div_mod (k + 1) F ltac:(lia)) as Hdm'.
    rewrite H0 in Hdm'.
    assert (k mod F = F - 1); [| lia].
    set (d := (k + 1) / F - k / F).
    assert (Hd : F * d = k mod F + 1) by (unfold d; lia).
    assert (0 < d) by nia. assert (d < 2) by nia. nia.
  - rewrite Z.add_0_r. symmetry.
    apply (Z.div_unique_pos (k + 1) F (k / F) (k mod F + 1)); [| lia].
    split; [lia |].
    destruct (decide (k mod F + 1 = F)) as [E | NE]; [| lia].
    exfalso. apply Hn.
    replace (k + 1) with (F * (k / F + 1)) by lia.
    rewrite Z.mul_comm. apply Z.mod_mul. lia.
Qed.

Lemma scheduled_0 F : scheduled F 0 = F.
Proof.
  unfold scheduled. destruct (0 <? F) eqn:E; [| done].
  change (Z.of_nat 0) with 0. rewrite Z.div_0_l by lia. lia.
Qed.

Lemma scheduled_due F k :
  Z.of_nat (S k) = scheduled F k <-> dueAt F (Z.of_nat (S k)).
Proof.
  unfold scheduled, dueAt.
  destruct (0 <? F) eqn:E.
  - apply Z.ltb_lt in E.
    pose proof (div_succ F (Z.of_nat k) E ltac:(lia)) as Hs.
    replace (Z.of_nat (S k)) with (Z.of_nat k + 1) by lia.
    pose proof (Z.div_mod (Z.of_nat k + 1) F ltac:(lia)) as Hdm.
    pose proof (Z.mod_pos_bound (Z.of_nat k + 1) F E) as Hb.
    destruct (decide ((Z.of_nat k + 1) mod F = 0)) as [H0 | Hn].
    + split; [intros _; split; lia |]. intros _. rewrite H0 in Hdm. nia.
    + split; [| intros [_ ?]; done].
      intros Heq. exfalso. apply Hn.
      rewrite Heq. rewrite Z.mul_comm. apply Z.mod_mul. lia.
  - apply Z.ltb_ge in E. split; [lia | intros [? _]; lia].
Qed.

Lemma scheduled_succ F k :
  scheduled F (S k) =
  if decide (dueAt F (Z.of_nat (S k))) then scheduled F k + F else scheduled F k.
Proof.
  unfold scheduled, dueAt.
  destruct (0 <? F) eqn:E.
  - apply Z.ltb_lt in E.
    replace (Z.of_nat (S k)) with (Z.of_nat k + 1) by lia.
    rewrite (div_succ F (Z.of_nat k)) by lia.
    destruct (decide ((Z.of_nat k + 1) mod F = 0)) as [H0 | Hn].
    + rewrite decide_True by done. lia.
    + rewrite decide_False by (intros [_ ?]; done). f_equal. lia.
  - apply Z.ltb_ge in E. rewrite decide_False by (intros [? _]; lia). done.
Qed.

(** One round of [frequencyItems.forEach]: it appends the items that are
    due and moves every item to its next position. *)
Lemma visit_round fis0 k res seen :
  fold_left (visitFrequencyItem (S k)) (map (reschedule k) fis0) (res, seen) =
  (res ++ map fitem (filter (fun fi => dueAt (ffrequency fi) (Z.of_nat (S k))) fis0),
   seen ++ map (reschedule (S k)) fis0).
Proof.
  revert res seen.
  induction fis0 as [| fi fis IH]; intros res seen.
  - simpl. by rewrite !app_nil_r.
  - cbn [map fold_left]. rewrite filter_cons.
    unfold visitFrequencyItem at 2. cbn [nextInsertAt reschedule fitem ffrequency itemIndex].
    destruct (decide (dueAt (ffrequency fi) (Z.of_nat (S k)))) as [Hd | Hd].
    + rewrite (proj2 (Z.eqb_eq _ _)) by (by apply scheduled_due).
      rewrite IH. cbn [map]. rewrite <- !app_assoc. cbn [app].
      unfold reschedule at 2.
      rewrite (scheduled_succ _ k), decide_True by done. done.
    + rewrite (proj2 (Z.eqb_neq _ _)) by (by rewrite scheduled_due).
      rewrite IH. cbn [map]. rewrite <- !app_assoc. cbn [app].
      unfold reschedule at 3.
      rewrite (scheduled_succ _ k), decide_False by done. done.
Qed.

Lemma fold_left_snoc {A B} (f : A -> B) (l : list A) (acc : list B) :
  fold_left (fun acc' i => acc' ++ [f i]) l acc = acc ++ map f l.
Proof.
  revert acc. induction l as [| x l IH]; intros acc; simpl.
  - by rewrite app_nil_r.
  - rewrite IH, <- app_assoc. done.
Qed.

Lemma fold_left_append {A B} (f : A -> list B) (l : list A) (acc : list B) :
  fold_left (fun acc' x => acc' ++ f x) l acc = acc ++ flat_map f l.
Proof.
  revert acc. induction l as [| x l IH]; intros acc; simpl.
  - by rewrite app_nil_r.
  - rewrite IH, <- app_assoc. done.
Qed.

Lemma collectBaseItems_flat streams :
  collectBaseItems streams =
  flat_map (fun s => map (enhance s) (items s)) (slideshowStreams streams).
Proof. unfold collectBaseItems. by rewrite fold_left_append. Qed.

Lemma allEnhancedItems_flat streams :
  allEnhancedItems streams =
  flat_map (fun s => map (enhance s) (items s)) (frequencyStreams streams).
Proof.
  unfold allEnhancedItems.
  assert (Haux : forall l acc,
    fold_left (fun acc stream =>
                 fold_left (fun acc' i => acc' ++ [enhance stream i]) (items stream) acc)
              l acc
    = acc ++ flat_map (fun s => map (enhance s) (items s)) l).
  { induction l as [| s l IH]; intros acc; cbn [fold_left flat_map].
    - by rewrite app_nil_r.
    - rewrite (fold_left_snoc (enhance s)), IH, <- app_assoc. done. }
  apply Haux.
Qed.

Lemma prepareFrequencyItems_flat streams :
  prepareFrequencyItems streams =
  flat_map (fun s => map (frequencyItemOf s) (items s)) (frequencyStreams streams).
Proof.
  unfold prepareFrequencyItems.
  assert (Haux : forall l acc,
    fold_left
      (fun frequencyItems stream =>
         if (0 <? length (items stream))%nat then
           let frequency := streamFrequency stream in
           fold_left
             (fun acc i =>
                acc ++ [{| fitem := enhance stream i;
                           ffrequency := frequency;
                           nextInsertAt := frequency;
                           itemIndex := 0 |}])
             (items stream) frequencyItems
         else frequencyItems) l acc
    = acc ++ flat_map (fun s => map (frequencyItemOf s) (items s)) l).
  { induction l as [| s l IH]; intros acc; cbn [fold_left flat_map].
    - by rewrite app_nil_r.
    - rewrite app_assoc, IH. f_equal.
      destruct (items s) as [| i its] eqn:E; [by rewrite app_nil_r |].
      rewrite <- E. replace (0 <? length (items s))%nat with true
        by (rewrite E; done).
      apply (fold_left_snoc (frequencyItemOf s)). }
  apply Haux.
Qed.

Lemma reschedule_prepared streams :
  map (reschedule 0) (prepareFrequencyItems streams) = prepareFrequencyItems streams.
Proof.
  rewrite prepareFrequencyItems_flat.
  induction (frequencyStreams streams) as [| s l IH]; simpl; [done |].
  rewrite map_app, IH. f_equal.
  rewrite map_map. apply map_ext. intros i.
  unfold reschedule, frequencyItemOf. simpl. by rewrite scheduled_0.
Qed.

Lemma due_prepared streams k :
  map fitem (filter (fun fi => dueAt (ffrequency fi) (Z.of_nat k))
                    (prepareFrequencyItems streams)) = dueItems streams k.
Proof.
  rewrite prepareFrequencyItems_flat. unfold dueItems.
  induction (frequencyStreams streams) as [| s l IH]; simpl; [done |].
  rewrite filter_app, map_app, IH. f_equal.
  destruct (decide (dueAt (streamFrequency s) (Z.of_nat k))) as [Hd | Hd].
  - induction (items s) as [| i its IHi]; simpl; [done |].
    rewrite filter_cons_True by done. simpl. by rewrite IHi.
  - induction (items s) as [| i its IHi]; simpl; [done |].
    rewrite filter_cons_False by done. done.
Qed.

(** The loop, started after [k] rounds, emits the rest of the base
    interleaved with the due items and needs one unit of fuel per round. *)
Lemma whileLoop_runs streams baseItems :
  forall fuel k res,
    (length baseItems - k <= fuel)%nat ->
    (k <= length baseItems)%nat ->
    whileLoop fuel baseItems
      {| baseIndex := k; result := res;
         frequencyItems := map (reschedule k) (prepareFrequencyItems streams) |}
    = Some {| baseIndex := length baseItems;
              result := res ++ interleave streams k (drop k baseItems);
              frequencyItems :=
                map (reschedule (length baseItems)) (prepareFrequencyItems streams) |}.
Proof.
  induction fuel as [| fuel IH]; intros k res Hfuel Hk.
  - assert (k = length baseItems) as -> by lia.
    simpl. rewrite Nat.ltb_irrefl, drop_all. simpl. by rewrite app_nil_r.
  - cbn [whileLoop baseIndex].
    destruct (k <? length baseItems)%nat eqn:E.
    + apply Nat.ltb_lt in E.
      destruct (lookup_lt_is_Some_2 baseItems k E) as [b Hb].
      rewrite Hb. unfold loopBody. cbn [baseIndex result frequencyItems].
      rewrite visit_round. cbn [app]. rewrite due_prepared.
      rewrite IH by lia.
      rewrite (drop_S _ _ _ Hb). cbn [interleave].
      rewrite <- !app_assoc. done.
    + apply Nat.ltb_ge in E. assert (k = length baseItems) as -> by lia.
      rewrite drop_all. simpl. by rewrite app_nil_r.
Qed.

Lemma swap_length {T} (l : list T) i j : length (swap l i j) = length l.
Proof.
  unfold swap. destruct (l !! i), (l !! j); try done.
  by rewrite !length_insert.
Qed.

Lemma shuffleArray_length {T} (r : nat -> nat) (l : list T) :
  length (shuffleArray r l) = length l.
Proof.
  unfold shuffleArray. generalize (length l - 1)%nat as i. intros i.
  revert l. induction i as [| i IH]; intros l; simpl; [done |].
  by rewrite IH, swap_length.
Qed.

Lemma baseSequence_length r streams shuffle :
  length (baseSequence r streams shuffle) = primaryCount streams.
Proof.
  unfold baseSequence, primaryCount.
  assert (length (collectBaseItems streams) =
          sum_list (map (fun s => length (items s)) (slideshowStreams streams))) as <-.
  { rewrite collectBaseItems_flat.
    induction (slideshowStreams streams) as [| s l IH]; simpl; [done |].
    by rewrite length_app, length_map, IH. }
  destruct (shuffle && _); [apply shuffleArray_length | done].
Qed.

(** The sequencer terminates with the interleaving, for every input. *)
Lemma buildPlaybackSequence_interleave r fuel streams shuffle :
  (primaryCount streams <= fuel)%nat ->
  (0 < primaryCount streams)%nat ->
  buildPlaybackSequence r fuel streams shuffle =
  Some (interleave streams 0 (baseSequence r streams shuffle)).
Proof.
  intros Hfuel Hpos. unfold buildPlaybackSequence.
  pose proof (baseSequence_length r streams shuffle) as HN.
  destruct (length (baseSequence r streams shuffle) =? 0)%nat eqn:E.
  { apply Nat.eqb_eq in E. lia. }
  rewrite <- (reschedule_prepared streams).
  rewrite (whileLoop_runs streams) by lia.
  simpl. by rewrite drop_0.
Qed.

Lemma buildPlaybackSequence_empty_base r fuel streams shuffle :
  primaryCount streams = 0%nat ->
  buildPlaybackSequence r fuel streams shuffle =
  Some (flat_map (fun s => map (enhance s) (items s)) (frequencyStreams streams)).
Proof.
  intros H0. unfold buildPlaybackSequence.
  rewrite baseSequence_length, H0. simpl. by rewrite allEnhancedItems_flat.
Qed.

(** Five slides with a photo every two slides play as A B X C D X E; a
    video stream listed first still comes after the single-photo stream
    in a shared slot; with too little fuel the loop does not finish. *)
Example five_slides_photo_every_two :
  names (buildPlaybackSequence alwaysFirst 5 fiveAndTwo false)
    = Some ["A"; "B"; "X"; "C"; "D"; "X"; "E"] /\
  names (buildPlaybackSequence alwaysFirst 5
           (stream "video" (JBoxed (Some 2)) ["V"] :: fiveAndTwo) false)
    = Some ["A"; "B"; "X"; "V"; "C"; "D"; "X"; "V"; "E"] /\
  buildPlaybackSequence alwaysFirst 4 fiveAndTwo false = None.
Proof. repeat split; by vm_compute. Qed.

Lemma sumZ_app l1 l2 : sumZ (l1 ++ l2) = sumZ l1 + sumZ l2.
Proof. induction l1 as [| x l IH]; simpl; [done | rewrite IH; lia]. Qed.

Lemma sumZ_const {A} (c : Z) (l : list A) :
  sumZ (map (fun _ => c) l) = Z.of_nat (length l) * c.
Proof.
  unfold sumZ. induction l as [| x l IH]; [done |].
  cbn [map foldr length]. rewrite IH. lia.
Qed.

Lemma insertions_succ F k :
  insertions F (S k) =
  insertions F k + (if decide (dueAt F (Z.of_nat (S k))) then 1 else 0).
Proof.
  unfold insertions, dueAt.
  destruct (0 <? F) eqn:E.
  - apply Z.ltb_lt in E.
    replace (Z.of_nat (S k)) with (Z.of_nat k + 1) by lia.
    rewrite (div_succ F (Z.of_nat k)) by lia.
    destruct (decide ((Z.of_nat k + 1) mod F = 0)).
    + by rewrite decide_True.
    + by rewrite decide_False by (intros [_ ?]; done).
  - apply Z.ltb_ge in E. rewrite decide_False by (intros [? _]; lia). done.
Qed.

Lemma dueItems_length streams k :
  Z.of_nat (length (dueItems streams (S k))) =
  totalInsertions streams (S k) - totalInsertions streams k.
Proof.
  unfold dueItems, totalInsertions, interstitialFrequencies.
  induction (frequencyStreams streams) as [| s l IH]; cbn [flat_map]; [done |].
  rewrite length_app, !map_app, !sumZ_app, Nat2Z.inj_add, IH.
  assert (Z.of_nat (length (if decide (dueAt (streamFrequency s) (Z.of_nat (S k)))
                            then map (enhance s) (items s) else [])) =
          sumZ (map (fun F => insertions F (S k))
                    (map (fun _ => streamFrequency s) (items s)))
          - sumZ (map (fun F => insertions F k)
                      (map (fun _ => streamFrequency s) (items s)))) as ->; [| lia].
  rewrite !map_map, !sumZ_const, (insertions_succ _ k).
  destruct (decide (dueAt (streamFrequency s) (Z.of_nat (S k)))).
  - rewrite length_map. lia.
  - simpl. lia.
Qed.

Lemma interleave_length streams rest : forall k,
  Z.of_nat (length (interleave streams k rest)) =
  Z.of_nat (length rest)
  + totalInsertions streams (k + length rest) - totalInsertions streams k.
Proof.
  induction rest as [| b rest IH]; intros k; cbn [interleave length].
  - rewrite Nat.add_0_r. lia.
  - rewrite length_app, !Nat2Z.inj_succ, Nat2Z.inj_add, IH, dueItems_length.
    replace (k + S (length rest))%nat with (S k + length rest)%nat by lia. lia.
Qed.

Lemma totalInsertions_0 streams : totalInsertions streams 0 = 0.
Proof.
  unfold totalInsertions.
  induction (interstitialFrequencies streams) as [| F l IH]; simpl; [done |].
  fold (sumZ (map (fun F => insertions F 0) l)). rewrite IH.
  unfold insertions. destruct (0 <? F) eqn:E; [| done].
  apply Z.ltb_lt in E.
  change (Z.of_nat 0) with 0. rewrite Z.div_0_l; lia.
Qed.

Lemma interstitialFrequencies_elem streams F :
  F ∈ interstitialFrequencies streams ->
  exists s, s ∈ frequencyStreams streams /\ F = streamFrequency s.
Proof.
  unfold interstitialFrequencies.
  induction (frequencyStreams streams) as [| s l IH]; cbn [flat_map].
  - intros H. by apply elem_of_nil in H.
  - rewrite elem_of_app. intros [H | H].
    + exists s. split; [left |].
      apply list_elem_of_fmap in H as (? & -> & _). done.
    + destruct (IH H) as (s' & ? & ?). exists s'. split; [by right | done].
Qed.

Lemma totalInsertions_positive streams n :
  (forall s, s ∈ frequencyStreams streams -> 0 < streamFrequency s) ->
  totalInsertions streams n =
  sumZ (map (fun F => Z.of_nat n / F) (interstitialFrequencies streams)).
Proof.
  intros Hpos. unfold totalInsertions. f_equal.
  apply map_ext_in. intros F HF.
  apply list_elem_of_In, interstitialFrequencies_elem in HF as (s & Hs & ->).
  unfold insertions. by rewrite (proj2 (Z.ltb_lt _ _)) by auto.
Qed.

Lemma dueAt_multiples F k N :
  1 <= F -> 1 <= k <= N ->
  (dueAt F k <-> exists m, 1 <= m <= N / F /\ k = m * F).
Proof.
  intros HF Hk. unfold dueAt. split.
  - intros [_ Hmod].
    pose proof (Z.div_mod k F ltac:(lia)) as Hdm. rewrite Hmod in Hdm.
    exists (k / F). split; [| lia]. split.
    + assert (0 < k / F); [nia | lia].
    + apply Z.div_le_mono; lia.
  - intros (m & _ & ->). split; [lia |]. apply Z.mod_mul. lia.
Qed.

Lemma filter_usable_slideshow l :
  slideshowStreams (filter usable l) = slideshowStreams l.
Proof.
  unfold slideshowStreams.
  induction l as [| s l IH]; [done |].
  rewrite (filter_cons usable), !(filter_cons (fun s => type s = "slideshow")).
  destruct (decide (usable s)) as [Hu | Hu].
  - rewrite filter_cons, IH. done.
  - rewrite IH. rewrite decide_False; [done |].
    intros Ht. apply Hu. unfold usable, interstitial. rewrite Ht.
    intros [[? | ?] _]; discriminate.
Qed.

Lemma filter_usable_due (t : string) (k : nat) l :
  flat_map (fun s => if decide (dueAt (streamFrequency s) (Z.of_nat k))
                     then map (enhance s) (items s) else [])
           (filter (fun s => type s = t) (filter usable l)) =
  flat_map (fun s => if decide (dueAt (streamFrequency s) (Z.of_nat k))
                     then map (enhance s) (items s) else [])
           (filter (fun s => type s = t) l).
Proof.
  induction l as [| s l IH]; [done |].
  rewrite (filter_cons usable), !(filter_cons (fun s => type s = t)).
  destruct (decide (usable s)) as [Hu | Hu].
  - rewrite filter_cons. destruct (decide (type s = t)); cbn [flat_map]; by rewrite IH.
  - rewrite IH. destruct (decide (type s = t)); [| done].
    cbn [flat_map]. rewrite decide_False; [done |].
    intros [Hpos _]. apply Hu. unfold usable. intros [_ Hle]. lia.
Qed.

Lemma dueItems_usable streams k :
  dueItems (filter usable streams) k = dueItems streams k.
Proof.
  unfold dueItems, frequencyStreams, singlePhotoStreams, videoStreams.
  rewrite !flat_map_app. by rewrite !filter_usable_due.
Qed.

Lemma interleave_usable streams rest : forall k,
  interleave (filter usable streams) k rest = interleave streams k rest.
Proof.
  induction rest as [| b rest IH]; intros k; cbn [interleave]; [done |].
  by rewrite dueItems_usable, IH.
Qed.

Lemma baseSequence_usable r streams shuffle :
  baseSequence r (filter usable streams) shuffle = baseSequence r streams shuffle.
Proof.
  unfold baseSequence, collectBaseItems. by rewrite filter_usable_slideshow.
Qed.

Lemma primaryCount_usable streams :
  primaryCount (filter usable streams) = primaryCount streams.
Proof. unfold primaryCount. by rewrite filter_usable_slideshow. Qed.

(** C2 (as the code has it).  The sequencer terminates on every stream
    set: one unit of fuel per primary item is enough.  When there is a
    primary item, an interstitial stream whose frequency is zero or
    negative is never due, and the output is the one obtained without
    such streams; when there is none, the output is every interstitial
    item once, whatever the frequencies. *)
Theorem nonpositive_frequency_never_inserted (randomIndex : nat -> nat) (fuel : nat)
    (streams : list StreamWithItems) (shuffle : bool) :
  (primaryCount streams <= fuel)%nat ->
  exists seq,
    buildPlaybackSequence randomIndex fuel streams shuffle = Some seq /\
    ((0 < primaryCount streams)%nat ->
       seq = interleave streams 0 (baseSequence randomIndex streams shuffle) /\
       (forall s k, s ∈ frequencyStreams streams -> streamFrequency s <= 0 ->
                    ~ dueAt (streamFrequency s) k) /\
       buildPlaybackSequence randomIndex fuel (filter usable streams) shuffle = Some seq) /\
    (primaryCount streams = 0%nat ->
       seq = flat_map (fun s => map (enhance s) (items s)) (frequencyStreams streams)).
Proof.
  intros Hfuel.
  destruct (decide (primaryCount streams = 0%nat)) as [H0 | Hpos].
  - rewrite buildPlaybackSequence_empty_base by done.
    eexists. split; [done |]. split; [lia | done].
  - rewrite buildPlaybackSequence_interleave by lia.
    eexists. split; [done |]. split; [| lia]. intros _. split; [done |]. split.
    + intros s k _ Hle [Hlt _]. lia.
    + rewrite buildPlaybackSequence_interleave
        by (rewrite primaryCount_usable; lia).
      by rewrite interleave_usable, baseSequence_usable.
Qed.

(** [nonpositive_frequency_never_inserted] at two slides and a photo of
    frequency 0. *)
Lemma nonpositive_frequency_witness :
  exists seq,
    buildPlaybackSequence alwaysFirst 2 zeroFrequency false = Some seq /\
    buildPlaybackSequence alwaysFirst 2 (filter usable zeroFrequency) false = Some seq.
Proof.
  destruct (nonpositive_frequency_never_inserted alwaysFirst 2 zeroFrequency false)
    as (seq & Hb & Hrest).
  - vm_compute. lia.
  - exists seq. split; [exact Hb |].
    apply (proj1 Hrest). vm_compute. lia.
Defined.

(** C2 as stated fails: with frequency 0 the photo is not inserted after
    every slide, it is not inserted at all. *)
Lemma zero_frequency_is_not_every_position :
  zeroStream ∈ frequencyStreams zeroFrequency /\
  streamFrequency zeroStream = 0 /\
  names (buildPlaybackSequence alwaysFirst 2 zeroFrequency false) = Some ["A"; "B"] /\
  names (Some (insertAtEveryPosition (baseSequence alwaysFirst zeroFrequency false)
                                     (map (enhance zeroStream) (items zeroStream))))
    = Some ["A"; "X"; "B"; "X"] /\
  buildPlaybackSequence alwaysFirst 2 zeroFrequency false <>
    Some (insertAtEveryPosition (baseSequence alwaysFirst zeroFrequency false)
                                (map (enhance zeroStream) (items zeroStream))).
Proof.
  split.
  { vm_compute. apply list_elem_of_In. left. reflexivity. }
  split; [reflexivity |]. split; [by vm_compute |]. split; [by vm_compute |].
  intros H. apply (f_equal names) in H. vm_compute in H. discriminate.
Qed.

(** ** The preview state machine *)

Ltac split_tests :=
  repeat match goal with
    | |- context [?a >=? ?b] => rewrite (Z.geb_leb a b); destruct (Z.leb_spec b a)
    | |- context [?a <? ?b] => destruct (Z.ltb_spec a b)
    | |- context [Preview.loopEnabled ?s] => destruct (Preview.loopEnabled s)
    | |- context [(?a =? ?b)%nat] => destruct (Nat.eqb_spec a b)
    end.

Section PreviewFacts.
Import Preview.
Variable allItems : list EnhancedStreamItem.
Variable slideshow : option SlideshowSettings.

(** C4.  On a non-empty list of length [L], [next] at index [L - 1]
    sets the index to 0 when the loaded slideshow has looping on, and
    otherwise (looping off, or no slideshow loaded) keeps the index at
    [L - 1] and sets [isPlaying] to false; [previous] at index 0 sets the
    index to [L - 1], whatever the loop setting.  The other state cells
    are left as they are. *)
Theorem command_wraparound (st : PreviewState) :
  (0 < length allItems)%nat ->
  (currentIndex st = Z.of_nat (length allItems) - 1 ->
     (forall settings, slideshow = Some settings -> loop settings = true ->
        handleCommand allItems slideshow "next" st =
          Updated {| currentIndex := 0; isPlaying := isPlaying st;
                     isBlackScreen := isBlackScreen st |}) /\
     (slideshow = None \/
      (exists settings, slideshow = Some settings /\ loop settings = false) ->
        handleCommand allItems slideshow "next" st =
          Updated {| currentIndex := Z.of_nat (length allItems) - 1;
                     isPlaying := false;
                     isBlackScreen := isBlackScreen st |})) /\
  (currentIndex st = 0 ->
     handleCommand allItems slideshow "previous" st =
       Updated {| currentIndex := Z.of_nat (length allItems) - 1;
                  isPlaying := isPlaying st;
                  isBlackScreen := isBlackScreen st |}).
Proof.
  intros Hne. split.
  - intros Hidx. cbn [handleCommand]. rewrite Hidx.
    replace (Z.of_nat (length allItems) - 1 + 1 >=? Z.of_nat (length allItems)) with true
      by (symmetry; apply Z.geb_le; lia).
    split.
    + intros settings -> Hloop. cbn [loopEnabled]. by rewrite Hloop.
    + intros [-> | (settings & -> & Hloop)]; cbn [loopEnabled]; rewrite ?Hloop;
        unfold setCurrentIndex, setIsPlaying; by simpl.
  - intros Hidx. cbn [handleCommand]. rewrite Hidx. by simpl.
Qed.

(** C9.  On a non-empty list, the six state commands of the remote
    handler, and the local next/previous helpers, keep
    [0 <= currentIndex < length]. *)
Theorem commands_keep_index_in_range (command : string) (st : PreviewState) :
  (0 < length allItems)%nat ->
  indexInRange allItems st ->
  command ∈ ["next"; "previous"; "play"; "pause"; "black-screen"; "show-screen"] ->
  outcomeInRange allItems (handleCommand allItems slideshow command st) /\
  indexInRange allItems (handleNext allItems slideshow st) /\
  indexInRange allItems (handlePrevious allItems st).
Proof.
  intros Hne Hin Hcmd. unfold indexInRange in *. split; [| split].
  - repeat (apply elem_of_cons in Hcmd as [-> | Hcmd]);
      [..| by apply elem_of_nil in Hcmd];
      cbn [handleCommand]; split_tests;
      cbn [outcomeInRange]; unfold indexInRange; simpl; lia.
  - unfold handleNext. split_tests; simpl; lia.
  - unfold handlePrevious. split_tests; simpl; lia.
Qed.
End PreviewFacts.

(** [command_wraparound] on three items: [next] at the last index with
    looping on, with looping off and with no slideshow loaded, and
    [previous] at the first index. *)
Lemma command_wraparound_witness :
  Preview.handleCommand threeItems
    (Some {| Preview.loop := true; Preview.shuffle := false |}) "next"
    {| Preview.currentIndex := 2; Preview.isPlaying := true;
       Preview.isBlackScreen := false |} =
  Preview.Updated {| Preview.currentIndex := 0; Preview.isPlaying := true;
                     Preview.isBlackScreen := false |} /\
  Preview.handleCommand threeItems
    (Some {| Preview.loop := false; Preview.shuffle := false |}) "next"
    {| Preview.currentIndex := 2; Preview.isPlaying := true;
       Preview.isBlackScreen := false |} =
  Preview.Updated {| Preview.currentIndex := 2; Preview.isPlaying := false;
                     Preview.isBlackScreen := false |} /\
  Preview.handleCommand threeItems None "next"
    {| Preview.currentIndex := 2; Preview.isPlaying := true;
       Preview.isBlackScreen := false |} =
  Preview.Updated {| Preview.currentIndex := 2; Preview.isPlaying := false;
                     Preview.isBlackScreen := false |} /\
  Preview.handleCommand threeItems
    (Some {| Preview.loop := false; Preview.shuffle := false |}) "previous"
    {| Preview.currentIndex := 0; Preview.isPlaying := true;
       Preview.isBlackScreen := true |} =
  Preview.Updated {| Preview.currentIndex := 2; Preview.isPlaying := true;
                     Preview.isBlackScreen := true |}.
Proof.
  assert (Hne : (0 < length threeItems)%nat) by (vm_compute; lia).
  split; [| split; [| split]].
  - exact (proj1 (proj1 (command_wraparound threeItems
             (Some {| Preview.loop := true; Preview.shuffle := false |})
             {| Preview.currentIndex := 2; Preview.isPlaying := true;
                Preview.isBlackScreen := false |} Hne) eq_refl)
             _ eq_refl eq_refl).
  - refine (proj2 (proj1 (command_wraparound threeItems
             (Some {| Preview.loop := false; Preview.shuffle := false |})
             {| Preview.currentIndex := 2; Preview.isPlaying := true;
                Preview.isBlackScreen := false |} Hne) eq_refl) _).
    right. eexists. split; reflexivity.
  - refine (proj2 (proj1 (command_wraparound threeItems None
             {| Preview.currentIndex := 2; Preview.isPlaying := true;
                Preview.isBlackScreen := false |} Hne) eq_refl) _).
    left. reflexivity.
  - exact (proj2 (command_wraparound threeItems
             (Some {| Preview.loop := false; Preview.shuffle := false |})
             {| Preview.currentIndex := 0; Preview.isPlaying := true;
                Preview.isBlackScreen := true |} Hne) eq_refl).
Defined.

(** [commands_keep_index_in_range] on three items, at the last index. *)
Lemma commands_keep_index_in_range_witness :
  Preview.outcomeInRange threeItems
    (Preview.handleCommand threeItems None "previous"
       {| Preview.currentIndex := 2; Preview.isPlaying := true;
          Preview.isBlackScreen := false |}).
Proof.
  refine (proj1 (commands_keep_index_in_range threeItems None "previous"
            {| Preview.currentIndex := 2; Preview.isPlaying := true;
               Preview.isBlackScreen := false |} _ _ _)).
  - vm_compute; lia.
  - unfold Preview.indexInRange. simpl. lia.
  - apply list_elem_of_In. vm_compute. right. left. reflexivity.
Defined.

(** C10.  On an empty list with the index at 0, the remote [previous]
    command sets the index to [-1], out of range, while the local
    [handlePrevious] leaves the state as it is. *)
Theorem previous_on_empty_list (slideshow : option Preview.SlideshowSettings)
    (playing black : bool) :
  let st := {| Preview.currentIndex := 0; Preview.isPlaying := playing;
               Preview.isBlackScreen := black |} in
  Preview.handleCommand [] slideshow "previous" st =
    Preview.Updated {| Preview.currentIndex := -1; Preview.isPlaying := playing;
                       Preview.isBlackScreen := black |} /\
  ~ Preview.indexInRange [] {| Preview.currentIndex := -1; Preview.isPlaying := playing;
                               Preview.isBlackScreen := black |} /\
  Preview.handlePrevious [] st = st.
Proof. intros st. split; [done |]. split; [| done]. unfold Preview.indexInRange. simpl. lia. Qed.

(** ** The heartbeat watcher *)

Section Liveness.
Import RemoteControl.

Lemma run_app st evs1 evs2 : run st (evs1 ++ evs2) = run (run st evs1) evs2.
Proof. unfold run. apply fold_left_app. Qed.

Lemma pollTicks_S start n :
  pollTicks start (S n) =
  pollTicks start n ++ [PollTick (start + 1000 * Z.of_nat (S n))].
Proof. unfold pollTicks. by rewrite seq_S, map_app. Qed.

Lemma ticks_keep_heartbeat evs : forall st,
  Forall isPollTick evs -> lastHeartbeat (run st evs) = lastHeartbeat st.
Proof.
  induction evs as [| ev evs IH]; intros st Hall; [done |].
  inversion Hall as [| ? ? Hev Hrest]; subst.
  cbn [run fold_left]. fold (run (step st ev) evs). rewrite IH by done.
  destruct ev as [? ? | now]; [done |].
  cbn [step]. unfold onPollTick.
  destruct (lastHeartbeat st) as [ts |] eqn:E; [| by rewrite E].
  destruct (ts =? 0); by rewrite ?E.
Qed.

Lemma pollTicks_are_ticks start n : Forall isPollTick (pollTicks start n).
Proof. unfold pollTicks. apply Forall_map, Forall_forall. done. Qed.

Lemma tick_derives st ts now :
  lastHeartbeat st = Some ts -> ts <> 0 ->
  isPreviewActive (step st (PollTick now)) = bool_decide (now - ts < 10000).
Proof.
  intros Hhb Hts. cbn [step]. unfold onPollTick. rewrite Hhb.
  rewrite (proj2 (Z.eqb_neq _ _)) by done. cbn [isPreviewActive].
  destruct (Z.ltb_spec (now - ts) 10000).
  - by rewrite bool_decide_eq_true_2.
  - rewrite bool_decide_eq_false_2; [done | lia].
Qed.

Lemma never_heard_inactive evs :
  Forall isPollTick evs -> run initialState evs = initialState.
Proof.
  induction evs as [| ev evs IH]; intros Hall; [done |].
  inversion Hall as [| ? ? Hev Hrest]; subst.
  destruct ev as [? ? | now]; [done |]. cbn [run fold_left step].
  by apply IH.
Qed.

(** C7 (as the code has it).  A poll tick sets [isPreviewActive] to
    [(now - timestamp) < 10000], [timestamp] being the (non-zero) value
    carried by the last heartbeat; a heartbeat sets it to [true].  With
    ticks every 1000 ms and no further heartbeat it is false at every
    tick from the first one where [now - timestamp >= 10000], such a tick
    exists, and a new heartbeat sets it again.  A controller that never
    received a heartbeat stays inactive. *)
Theorem liveness_timeout (st : ControllerState) (receivedAt timestamp start : Z) :
  timestamp <> 0 ->
  let heard := step st (HeartbeatReceived receivedAt timestamp) in
  (forall st' now, lastHeartbeat st' = Some timestamp ->
     isPreviewActive (step st' (PollTick now)) =
     bool_decide (now - timestamp < 10000)) /\
  isPreviewActive heard = true /\
  (forall n, (1 <= n)%nat ->
     isPreviewActive (run heard (pollTicks start n)) =
     bool_decide (start + 1000 * Z.of_nat n - timestamp < 10000)) /\
  (exists n, (1 <= n)%nat /\ 10000 <= start + 1000 * Z.of_nat n - timestamp) /\
  (forall n m, (1 <= n <= m)%nat ->
     10000 <= start + 1000 * Z.of_nat n - timestamp ->
     isPreviewActive (run heard (pollTicks start m)) = false) /\
  (forall n receivedAt' timestamp',
     isPreviewActive
       (step (run heard (pollTicks start n))
             (HeartbeatReceived receivedAt' timestamp')) = true) /\
  (forall evs, Forall isPollTick evs ->
     isPreviewActive (run initialState evs) = false).
Proof.
  intros Hts heard.
  assert (Hderive : forall n, (1 <= n)%nat ->
     isPreviewActive (run heard (pollTicks start n)) =
     bool_decide (start + 1000 * Z.of_nat n - timestamp < 10000)).
  { intros n Hn. destruct n as [| n]; [lia |].
    rewrite pollTicks_S, run_app. cbn [run fold_left].
    apply tick_derives; [| done].
    rewrite ticks_keep_heartbeat by apply pollTicks_are_ticks. done. }
  split; [intros; by apply tick_derives |].
  split; [done |]. split; [done |]. split.
  { exists (S (Z.to_nat (10 + (timestamp - start) / 1000 + 1))). split; [lia |].
    pose proof (Z.div_mod (timestamp - start) 1000 ltac:(lia)).
    pose proof (Z.mod_pos_bound (timestamp - start) 1000 ltac:(lia)). lia. }
  split.
  { intros n m Hnm Hn. rewrite Hderive by lia.
    rewrite bool_decide_eq_false_2; [done | lia]. }
  split; [done |].
  intros evs Hall. by rewrite never_heard_inactive.
Qed.

(** [liveness_timeout]: a heartbeat stamped 1700000000000 arrives 120 ms
    later; ten poll ticks after that the display counts as inactive. *)
Lemma liveness_timeout_witness :
  isPreviewActive
    (run (step initialState (HeartbeatReceived 1700000000120 1700000000000))
         (pollTicks 1700000000120 10)) = false.
Proof.
  assert (H : (1700000000000 : Z) <> 0) by discriminate.
  destruct (liveness_timeout initialState 1700000000120 1700000000000
                             1700000000120 H) as (_ & _ & _ & _ & Hstop & _).
  apply (Hstop 10%nat 10%nat); [lia | vm_compute; discriminate].
Defined.

(** C7 as stated fails: a heartbeat that the display stamped
    1700000005000 arrives when the controller's clock shows 1700000020000
    (the clocks differ, or the message was held up); at the poll tick one
    second later the display is reported inactive although the receipt is
    one second old. *)
Lemma receipt_time_is_not_what_counts :
  lastReceipt [HeartbeatReceived 1700000020000 1700000005000;
               PollTick 1700000021000] = Some 1700000020000 /\
  isPreviewActive (run initialState [HeartbeatReceived 1700000020000 1700000005000;
                                     PollTick 1700000021000])
    <> bool_decide (1700000021000 - 1700000020000 < 10000).
Proof. split; [by vm_compute |]. vm_compute. discriminate. Qed.
End Liveness.

(** ** The realtime services *)

Section RealtimeFacts.
Import Realtime.

Lemma emptyWorld_keyed : cacheKeyed emptyWorld.
Proof. intros c key channel H. destruct c; simpl in H; by rewrite lookup_empty in H. Qed.

Ltac unfold_services :=
  unfold sendCommand, broadcastStatus, sendHeartbeat,
         subscribeToCommands, subscribeToStatus, subscribeToHeartbeat,
         getCommandChannel, getStatusChannel, getHeartbeatChannel,
         awaitSubscribed, subscriptionStatus, supabaseChannel,
         cacheGet, cacheSet, cacheDelete, relayState,
         bind, ret, emit, getWorld, modify, traceOf, valueOf, worldOf;
  cbn [cacheOf].

Ltac split_service :=
  repeat match goal with
    | |- context [match ?m !! ?k with _ => _ end] =>
        let E := fresh "Hcached" in destruct (m !! k) eqn:E
    | |- context [match ?o with Some _ => _ | None => _ end] => destruct o
    | |- context [decide (?a = ?b)] => destruct (decide (a = b))
    | |- context [match ?a with NoAnswer => _ | _ => _ end] => destruct a
    | |- context [?a <? 5000] => destruct (Z.ltb_spec a 5000)
    | |- context [match ?s with SUBSCRIBED => _ | _ => _ end] => destruct s
    end; cbn [fst snd app].

(** C3 (as the code has it).  The topics are
    [slideshow:{id}:commands], [slideshow:{id}:status] and
    [slideshow:{id}:heartbeat]; every channel the publishers, the
    subscribers and their unsubscribe functions create, listen on,
    subscribe, unsubscribe or send on is the one of their own topic, and
    the only event named is [command], [status] or [heartbeat]. *)
Theorem topics_and_events (slideshowId command : string) (payload : option string)
    (status : PreviewStatus) (insertedAt sentAt : Z) (dbError : option string)
    (answer : Handshake) (w later : World) :
  cacheKeyed w ->
  (commandChannelName slideshowId = "slideshow:" +:+ slideshowId +:+ ":commands" /\
   statusChannelName slideshowId = "slideshow:" +:+ slideshowId +:+ ":status" /\
   heartbeatChannelName slideshowId = "slideshow:" +:+ slideshowId +:+ ":heartbeat") /\
  (let ok := Forall (onTopic (commandChannelName slideshowId) "command") in
   ok (traceOf (sendCommand slideshowId command payload insertedAt sentAt
                            dbError answer w)) /\
   ok (traceOf (subscribeToCommands slideshowId w)) /\
   ok (traceOf (valueOf (subscribeToCommands slideshowId w) later))) /\
  (let ok := Forall (onTopic (statusChannelName slideshowId) "status") in
   ok (traceOf (broadcastStatus slideshowId status sentAt answer w)) /\
   ok (traceOf (subscribeToStatus slideshowId w)) /\
   ok (traceOf (valueOf (subscribeToStatus slideshowId w) later))) /\
  (let ok := Forall (onTopic (heartbeatChannelName slideshowId) "heartbeat") in
   ok (traceOf (sendHeartbeat slideshowId sentAt answer w)) /\
   ok (traceOf (subscribeToHeartbeat slideshowId w)) /\
   ok (traceOf (valueOf (subscribeToHeartbeat slideshowId w) later))).
Proof.
  intros Hkeyed. split; [done |].
  pose proof (Hkeyed CommandCache) as Hc.
  pose proof (Hkeyed StatusCache) as Hs.
  pose proof (Hkeyed HeartbeatCache) as Hh.
  cbn [cacheOf] in Hc, Hs, Hh.
  repeat split; unfold_services; split_service;
    repeat constructor; cbn [onTopic topic]; auto;
    first [ by eapply Hc | by eapply Hs | by eapply Hh | idtac ];
    match goal with
    | H : _ !! _ = Some _ |- _ =>
        unfold setCache in H;
        cbn [commandChannels statusChannels heartbeatChannels] in H;
        by rewrite lookup_delete_eq in H
    end.
Qed.

(** [topics_and_events] for a first command in a fresh page. *)
Lemma topics_and_events_witness :
  Forall (onTopic (commandChannelName "show") "command")
         (traceOf (sendCommand "show" "next" None 1000 1001 None
                               (Answer 200 SUBSCRIBED) emptyWorld)).
Proof.
  exact (proj1 (proj1 (proj2 (topics_and_events "show" "next" None Scenario.playing
           1000 1001 None (Answer 200 SUBSCRIBED) emptyWorld emptyWorld
           emptyWorld_keyed)))).
Defined.

(** C3 as stated fails: the topics do not start with [session:]. *)
Lemma topics_have_no_session_prefix :
  ~ Forall (onTopic (sessionTopic "show" "commands") "command")
           (traceOf (sendCommand "show" "next" None 1000 1001 None
                                 (Answer 200 SUBSCRIBED) emptyWorld)) /\
  ~ Forall (onTopic (sessionTopic "show" "status") "status")
           (traceOf (broadcastStatus "show" Scenario.playing 1000
                                     (Answer 200 SUBSCRIBED) emptyWorld)) /\
  ~ Forall (onTopic (sessionTopic "show" "heartbeat") "heartbeat")
           (traceOf (sendHeartbeat "show" 1000 (Answer 200 SUBSCRIBED) emptyWorld)).
Proof.
  split; [| split]; intros H.
  - assert (Hin : Send 0 (commandChannelName "show") "command"
                       (CommandPayload "next" None 1001)
                  ∈ traceOf (sendCommand "show" "next" None 1000 1001 None
                                         (Answer 200 SUBSCRIBED) emptyWorld))
      by (vm_compute; repeat constructor).
    destruct (proj1 (Forall_forall _ _) H _ Hin) as [Hname _]. discriminate Hname.
  - assert (Hin : Send 0 (statusChannelName "show") "status"
                       (StatusPayload Scenario.playing 1000)
                  ∈ traceOf (broadcastStatus "show" Scenario.playing 1000
                                             (Answer 200 SUBSCRIBED) emptyWorld))
      by (vm_compute; repeat constructor).
    destruct (proj1 (Forall_forall _ _) H _ Hin) as [Hname _]. discriminate Hname.
  - assert (Hin : Send 0 (heartbeatChannelName "show") "heartbeat"
                       (HeartbeatPayload 1000)
                  ∈ traceOf (sendHeartbeat "show" 1000 (Answer 200 SUBSCRIBED)
                                           emptyWorld))
      by (vm_compute; repeat constructor).
    destruct (proj1 (Forall_forall _ _) H _ Hin) as [Hname _]. discriminate Hname.
Qed.

(** C8.  [sendCommand] first writes the command to the log table.  A
    failed write adds one console report and changes nothing else: same
    result, same caches, same remaining effects.  When the call succeeds
    the broadcast on the command topic is the last effect; the broadcast
    is left out only when the cached channel is not joined and the relay
    does not confirm the subscription within the time limit. *)
Theorem log_then_broadcast (slideshowId command : string) (payload : option string)
    (insertedAt sentAt : Z) (answer : Handshake) (err : string) (w : World) :
  cacheKeyed w ->
  let logged := sendCommand slideshowId command payload insertedAt sentAt None answer w in
  let failed :=
    sendCommand slideshowId command payload insertedAt sentAt (Some err) answer w in
  exists rest,
    traceOf logged =
      DbInsert "slideshow_commands" slideshowId command payload insertedAt :: rest /\
    traceOf failed =
      DbInsert "slideshow_commands" slideshowId command payload insertedAt
        :: ConsoleError "Failed to save command to database:" err :: rest /\
    valueOf failed = valueOf logged /\
    worldOf failed = worldOf logged /\
    match valueOf logged with
    | inl _ =>
        exists h before,
          rest = before ++ [Send h (commandChannelName slideshowId) "command"
                                 (CommandPayload command payload sentAt)] /\
          Forall (fun e => isSend e = false) before
    | inr _ =>
        Forall (fun e => isSend e = false) rest /\
        (forall channel,
            commandChannels w !! commandChannelName slideshowId = Some channel ->
            state channel <> joined) /\
        (forall after, answer = Answer after SUBSCRIBED -> 5000 <= after)
    end.
Proof.
  intros Hkeyed logged failed. subst logged failed.
  pose proof (Hkeyed CommandCache) as Hc. cbn [cacheOf] in Hc.
  unfold_services.
  destruct (commandChannels w !! commandChannelName slideshowId) as [channel |] eqn:Hcached;
    cbn [fst snd app state].
  - rewrite (Hc _ _ Hcached).
    destruct (decide (state channel = joined)) as [Hj | Hj]; cbn [fst snd app].
    + eexists. repeat split. exists (handle channel), []. by split.
    + destruct answer as [| after []]; cbn [fst snd app];
        try destruct (Z.ltb_spec after 5000); cbn [fst snd app];
        eexists; (split; [reflexivity |]); (split; [reflexivity |]);
        (split; [reflexivity |]); (split; [reflexivity |]);
        first [ by eexists _, [_]; split; [reflexivity | repeat constructor]
              | split; [repeat constructor |];
                split; [by intros ? [= <-] | intros ? [= <-]; lia]
              | split; [repeat constructor |];
                split; [by intros ? [= <-] | by intros ? [=]] ].
  - destruct answer as [| after []]; cbn [fst snd app];
      try destruct (Z.ltb_spec after 5000); cbn [fst snd app];
      eexists; (split; [reflexivity |]); (split; [reflexivity |]);
      (split; [reflexivity |]); (split; [reflexivity |]);
      first [ by eexists _, [_; _]; split; [reflexivity | repeat constructor]
            | split; [repeat constructor |];
              split; [by intros ? [=] | intros ? [= <-]; lia]
            | split; [repeat constructor |];
              split; [by intros ? [=] | by intros ? [=]] ].
Qed.

(** [log_then_broadcast] with a failing log write. *)
Lemma log_then_broadcast_witness :
  exists rest,
    traceOf (sendCommand "show" "next" None 1000 1001 (Some "down")
                         (Answer 200 SUBSCRIBED) emptyWorld) =
      DbInsert "slideshow_commands" "show" "next" None 1000
        :: ConsoleError "Failed to save command to database:" "down" :: rest /\
    last rest = Some (Send 0 (commandChannelName "show") "command"
                           (CommandPayload "next" None 1001)).
Proof.
  destruct (log_then_broadcast "show" "next" None 1000 1001 (Answer 200 SUBSCRIBED)
              "down" emptyWorld emptyWorld_keyed)
    as (rest & Hlogged & Hfailed & _).
  exists rest. split; [exact Hfailed |].
  vm_compute in Hlogged. injection Hlogged as <-. reflexivity.
Defined.

Ltac handshake_cases Hcached Htopic :=
  unfold handshakeOutcome; unfold_services;
  rewrite Hcached; cbn [fst snd app]; rewrite ?Htopic;
  rewrite decide_False by done; cbn [fst snd app];
  match goal with
  | |- context [match ?a with NoAnswer => _ | _ => _ end] =>
      destruct a as [| ? []]
  end; cbn [fst snd app];
  try match goal with
      | |- context [?t <? 5000] => destruct (t <? 5000)
      end; cbn [fst snd app statusName];
  unfold setCache; cbn [commandChannels statusChannels heartbeatChannels cacheOf];
  (split;
   [ first [ by eexists [], _; split; [reflexivity | constructor]
           | by eexists [_], _; split; [reflexivity | repeat constructor]
           | by eexists [_; _], _; split; [reflexivity | repeat constructor] ]
   | split; [reflexivity |];
     rewrite ?lookup_delete_eq, ?lookup_alter_eq, ?Hcached; reflexivity ]).

Lemma sendCommand_handshake (slideshowId command : string) (payload : option string)
    (insertedAt sentAt : Z) (dbError : option string) (answer : Handshake)
    (w : World) (channel : RealtimeChannel) :
  commandChannels w !! commandChannelName slideshowId = Some channel ->
  topic channel = commandChannelName slideshowId ->
  state channel <> joined ->
  handshakeOutcome CommandCache (commandChannelName slideshowId)
    "Channel subscription timeout" "Channel subscription failed: " channel answer
    (sendCommand slideshowId command payload insertedAt sentAt dbError answer w).
Proof.
  intros Hcached Htopic Hstate.
  destruct dbError; handshake_cases Hcached Htopic.
Qed.

Lemma broadcastStatus_handshake (slideshowId : string) (status : PreviewStatus)
    (sentAt : Z) (answer : Handshake) (w : World) (channel : RealtimeChannel) :
  statusChannels w !! statusChannelName slideshowId = Some channel ->
  topic channel = statusChannelName slideshowId ->
  state channel <> joined ->
  handshakeOutcome StatusCache (statusChannelName slideshowId)
    "Status channel subscription timeout" "Status channel subscription failed: "
    channel answer
    (broadcastStatus slideshowId status sentAt answer w).
Proof. intros Hcached Htopic Hstate. handshake_cases Hcached Htopic. Qed.

Lemma sendHeartbeat_handshake (slideshowId : string)
    (sentAt : Z) (answer : Handshake) (w : World) (channel : RealtimeChannel) :
  heartbeatChannels w !! heartbeatChannelName slideshowId = Some channel ->
  topic channel = heartbeatChannelName slideshowId ->
  state channel <> joined ->
  handshakeOutcome HeartbeatCache (heartbeatChannelName slideshowId)
    "Heartbeat channel subscription timeout" "Heartbeat channel subscription failed: "
    channel answer
    (sendHeartbeat slideshowId sentAt answer w).
Proof. intros Hcached Htopic Hstate. handshake_cases Hcached Htopic. Qed.

(** C6, the failing run.  When the relay never answers, the publisher
    fails on its 5-second timer and the handle stays in the cache: the
    next call subscribes the same handle again and creates no channel.
    When the relay reports an error the handle is evicted and the next
    call creates a fresh one. *)
Theorem timeout_keeps_cached_handle :
  (valueOf Scenario.command1 = inr "Channel subscription timeout" /\
   commandChannels (worldOf Scenario.command1) !! commandChannelName "show" =
     Some {| handle := 0; topic := commandChannelName "show";
             broadcastSelf := true; state := joining |} /\
   valueOf Scenario.command2 = inr "Channel subscription timeout" /\
   traceOf Scenario.command2 =
     [DbInsert "slideshow_commands" "show" "next" None 7000;
      Subscribe 0 (commandChannelName "show")] /\
   commandChannels (worldOf Scenario.command2) !! commandChannelName "show" =
     Some {| handle := 0; topic := commandChannelName "show";
             broadcastSelf := true; state := joining |}) /\
  (valueOf Scenario.command3 = inr "Channel subscription failed: CHANNEL_ERROR" /\
   commandChannels (worldOf Scenario.command3) !! commandChannelName "show" = None /\
   traceOf Scenario.command4 =
     [DbInsert "slideshow_commands" "show" "next" None 9000;
      CreateChannel 1 (commandChannelName "show") true;
      Subscribe 1 (commandChannelName "show");
      Send 1 (commandChannelName "show") "command"
           (CommandPayload "next" None 9001)]) /\
  (valueOf Scenario.status1 = inr "Status channel subscription timeout" /\
   valueOf Scenario.status2 = inr "Status channel subscription timeout" /\
   traceOf Scenario.status2 = [Subscribe 0 (statusChannelName "show")] /\
   statusChannels (worldOf Scenario.status2) !! statusChannelName "show" =
     Some {| handle := 0; topic := statusChannelName "show";
             broadcastSelf := false; state := joining |}) /\
  (valueOf Scenario.heartbeat1 = inr "Heartbeat channel subscription timeout" /\
   valueOf Scenario.heartbeat2 = inr "Heartbeat channel subscription timeout" /\
   traceOf Scenario.heartbeat2 = [Subscribe 0 (heartbeatChannelName "show")] /\
   heartbeatChannels (worldOf Scenario.heartbeat2) !! heartbeatChannelName "show" =
     Some {| handle := 0; topic := heartbeatChannelName "show";
             broadcastSelf := false; state := joining |}).
Proof. repeat split; by vm_compute. Qed.

Ltac use_keyed Hk key ch :=
  first [ exact (Hk CommandCache key ch) | exact (Hk StatusCache key ch)
        | exact (Hk HeartbeatCache key ch) ].

Lemma keyed_insert c name channel w :
  cacheKeyed w -> topic channel = name ->
  cacheKeyed (setCache c (<[name := channel]> (cacheOf c w)) w).
Proof.
  intros Hk Ht c' key ch. destruct c, c'; cbn [cacheOf setCache commandChannels
    statusChannels heartbeatChannels]; try (by use_keyed Hk key ch);
    (destruct (decide (name = key)) as [<- | Hne];
     [ rewrite lookup_insert_eq; by intros [= <-]
     | rewrite lookup_insert_ne by done; by use_keyed Hk key ch ]).
Qed.

Lemma keyed_delete c name w :
  cacheKeyed w -> cacheKeyed (setCache c (delete name (cacheOf c w)) w).
Proof.
  intros Hk c' key ch. destruct c, c'; cbn [cacheOf setCache commandChannels
    statusChannels heartbeatChannels]; try (by use_keyed Hk key ch);
    (destruct (decide (name = key)) as [<- | Hne];
     [ by rewrite lookup_delete_eq
     | rewrite lookup_delete_ne by done; by use_keyed Hk key ch ]).
Qed.

Lemma keyed_alter c name s w :
  cacheKeyed w -> cacheKeyed (setCache c (alter (withState s) name (cacheOf c w)) w).
Proof.
  intros Hk c' key ch. destruct c, c'; cbn [cacheOf setCache commandChannels
    statusChannels heartbeatChannels]; try (by use_keyed Hk key ch);
    (destruct (decide (name = key)) as [<- | Hne];
     [ rewrite lookup_alter_eq;
       match goal with
       | |- context [?m !! name] => destruct (m !! name) as [old |] eqn:E
       end; [| done];
       intros [= <-]; cbn [withState topic];
       first [ exact (Hk CommandCache _ _ E) | exact (Hk StatusCache _ _ E)
             | exact (Hk HeartbeatCache _ _ E) ]
     | rewrite lookup_alter_ne by done; by use_keyed Hk key ch ]).
Qed.

Lemma keyed_fresh w : cacheKeyed w -> cacheKeyed (freshHandle w).
Proof. intros Hk c key ch. destruct c; by use_keyed Hk key ch. Qed.

Ltac keyed :=
  repeat match goal with
    | |- cacheKeyed (freshHandle _) => apply keyed_fresh
    | |- cacheKeyed (setCache _ (alter _ _ _) _) => apply keyed_alter
    | |- cacheKeyed (setCache _ (delete _ _) _) => apply keyed_delete
    | |- cacheKeyed (setCache _ (<[_ := _]> _) _) =>
        apply keyed_insert; [| reflexivity]
    | |- cacheKeyed _ => assumption
    end.

Ltac unfold_worlds :=
  unfold sendCommand, broadcastStatus, sendHeartbeat,
         subscribeToCommands, subscribeToStatus, subscribeToHeartbeat,
         getCommandChannel, getStatusChannel, getHeartbeatChannel,
         awaitSubscribed, subscriptionStatus, supabaseChannel,
         cacheGet, cacheSet, cacheDelete, relayState,
         bind, ret, emit, getWorld, modify, traceOf, valueOf, worldOf.

(** The services keep every cached handle under its own topic name. *)
Lemma services_keep_caches_keyed (slideshowId command : string)
    (payload : option string) (status : PreviewStatus) (insertedAt sentAt : Z)
    (dbError : option string) (answer : Handshake) (w later : World) :
  cacheKeyed w ->
  cacheKeyed (worldOf (sendCommand slideshowId command payload insertedAt sentAt
                                   dbError answer w)) /\
  cacheKeyed (worldOf (broadcastStatus slideshowId status sentAt answer w)) /\
  cacheKeyed (worldOf (sendHeartbeat slideshowId sentAt answer w)) /\
  cacheKeyed (worldOf (subscribeToCommands slideshowId w)) /\
  cacheKeyed (worldOf (subscribeToStatus slideshowId w)) /\
  cacheKeyed (worldOf (subscribeToHeartbeat slideshowId w)) /\
  (cacheKeyed later ->
   cacheKeyed (worldOf (valueOf (subscribeToCommands slideshowId w) later)) /\
   cacheKeyed (worldOf (valueOf (subscribeToStatus slideshowId w) later)) /\
   cacheKeyed (worldOf (valueOf (subscribeToHeartbeat slideshowId w) later))).
Proof.
  intros Hk.
  split; [| split; [| split; [| split; [| split; [| split]]]]];
    [.. | intros Hl; split; [| split]];
    unfold_worlds; split_service; keyed.
Qed.
End RealtimeFacts.

(* ===================================================================== *)
(** ** More on the sequencer *)
(* ===================================================================== *)

Lemma swap_permutation {T} (l : list T) i j : swap l i j ≡ₚ l.
Proof.
  unfold swap.
  destruct (l !! i) as [a |] eqn:Hi; [| done].
  destruct (l !! j) as [b |] eqn:Hj; [| done].
  by apply Permutation_insert_swap.
Qed.

Lemma shuffleLoop_permutation {T} (r : nat -> nat) i : forall l : list T,
  shuffleLoop r i l ≡ₚ l.
Proof.
  induction i as [| i IH]; intros l; cbn [shuffleLoop]; [done |].
  by rewrite IH, swap_permutation.
Qed.

(** X1.  [shuffleArray] returns a rearrangement of its argument: the same
    elements with the same multiplicities, hence the same length and the
    same members.  The draws are taken inside the array, as
    [Math.floor(Math.random() * (i + 1))] gives them; outside it the
    code would write [undefined] cells, which [swap] does not model. *)
Theorem shuffleArray_permutation {T} (randomIndex : nat -> nat) (array : list T) :
  drawsInRange randomIndex ->
  shuffleArray randomIndex array ≡ₚ array /\
  length (shuffleArray randomIndex array) = length array /\
  (forall x, x ∈ shuffleArray randomIndex array <-> x ∈ array).
Proof.
  intros _.
  assert (Hp : shuffleArray randomIndex array ≡ₚ array)
    by apply shuffleLoop_permutation.
  split; [done |]. split; [by rewrite Hp |]. intros x. by rewrite Hp.
Qed.

Lemma alwaysFirst_in_range : drawsInRange alwaysFirst.
Proof. intros i. unfold alwaysFirst. lia. Qed.

Lemma shuffleArray_permutation_witness :
  shuffleArray alwaysFirst ["A"; "B"; "C"; "D"] ≡ₚ ["A"; "B"; "C"; "D"] /\
  shuffleArray alwaysFirst ["A"; "B"; "C"; "D"] = ["B"; "C"; "D"; "A"].
Proof.
  split; [| reflexivity].
  exact (proj1 (shuffleArray_permutation alwaysFirst ["A"; "B"; "C"; "D"]
                  alwaysFirst_in_range)).
Defined.

Lemma baseSequence_permutation r streams shuffle :
  baseSequence r streams shuffle ≡ₚ
  flat_map (fun s => map (enhance s) (items s)) (slideshowStreams streams).
Proof.
  unfold baseSequence. rewrite collectBaseItems_flat.
  destruct (shuffle && _); [apply shuffleLoop_permutation | done].
Qed.

Lemma baseSequence_primary r streams shuffle :
  Forall primary (baseSequence r streams shuffle).
Proof.
  rewrite baseSequence_permutation. unfold slideshowStreams.
  apply Forall_forall. intros e He.
  apply list_elem_of_In, in_flat_map in He as (s & Hs & He).
  apply list_elem_of_In, list_elem_of_filter in Hs as [Ht _].
  apply in_map_iff in He as (i & <- & _). exact Ht.
Qed.

Lemma frequencyStreams_interstitial streams s :
  s ∈ frequencyStreams streams -> s ∈ streams /\ interstitial s.
Proof.
  unfold frequencyStreams, singlePhotoStreams, videoStreams, interstitial.
  rewrite elem_of_app, !list_elem_of_filter. intros [[? ?] | [? ?]]; auto.
Qed.

Lemma dueItems_not_primary streams k :
  Forall (fun e => ~ primary e) (dueItems streams k).
Proof.
  unfold dueItems. apply Forall_forall. intros e He.
  apply list_elem_of_In, in_flat_map in He as (s & Hs & He).
  apply list_elem_of_In, frequencyStreams_interstitial in Hs as [_ Hi].
  destruct (decide _); [| done].
  apply in_map_iff in He as (i & <- & _).
  unfold primary, interstitial in *. cbn [enhance streamType].
  destruct Hi as [-> | ->]; discriminate.
Qed.

Lemma filter_none {A} (P : A -> Prop) `{!forall x, Decision (P x)} (l : list A) :
  Forall (fun x => ~ P x) l -> filter P l = [].
Proof.
  induction 1 as [| x l Hx _ IH]; [done |].
  by rewrite filter_cons_False.
Qed.

Lemma interleave_filter_primary streams rest : forall k,
  Forall primary rest ->
  filter primary (interleave streams k rest) = rest.
Proof.
  induction rest as [| b rest IH]; intros k Hall; [done |].
  inversion Hall as [| ? ? Hb Hrest]; subst.
  cbn [interleave]. rewrite filter_cons_True by done.
  rewrite filter_app, (filter_none _ _ (dueItems_not_primary streams (S k))).
  cbn [app]. by rewrite IH.
Qed.

Lemma allEnhanced_not_primary streams :
  Forall (fun e => ~ primary e)
         (flat_map (fun s => map (enhance s) (items s)) (frequencyStreams streams)).
Proof.
  apply Forall_forall. intros e He.
  apply list_elem_of_In, in_flat_map in He as (s & Hs & He).
  apply list_elem_of_In, frequencyStreams_interstitial in Hs as [_ Hi].
  apply in_map_iff in He as (i & <- & _).
  unfold primary, interstitial in *. cbn [enhance streamType].
  destruct Hi as [-> | ->]; discriminate.
Qed.

(** X2.  The primary items of the output, read in order, are exactly the
    base sequence: interleaving only adds interstitial items between
    them.  Without shuffle they are the items of the slideshow streams in
    stream order, then item order. *)
Theorem primary_items_keep_their_order (randomIndex : nat -> nat) (fuel : nat)
    (streams : list StreamWithItems) (shuffle : bool) :
  (primaryCount streams <= fuel)%nat ->
  exists seq,
    buildPlaybackSequence randomIndex fuel streams shuffle = Some seq /\
    filter primary seq = baseSequence randomIndex streams shuffle /\
    (shuffle = false ->
     filter primary seq =
     flat_map (fun s => map (enhance s) (items s))
              (filter (fun s => type s = "slideshow") streams)).
Proof.
  intros Hfuel.
  assert (Hunshuffled : shuffle = false ->
            baseSequence randomIndex streams shuffle =
            flat_map (fun s => map (enhance s) (items s))
                     (filter (fun s => type s = "slideshow") streams)).
  { intros ->. unfold baseSequence. cbn. apply collectBaseItems_flat. }
  destruct (decide (primaryCount streams = 0%nat)) as [H0 | Hpos].
  - rewrite buildPlaybackSequence_empty_base by done.
    eexists. split; [done |].
    assert (Hnil : baseSequence randomIndex streams shuffle = []).
    { apply length_zero_iff_nil. by rewrite baseSequence_length. }
    rewrite (filter_none _ _ (allEnhanced_not_primary streams)).
    split; [done |]. intros Hs. by rewrite <- Hunshuffled, Hnil.
  - rewrite buildPlaybackSequence_interleave by lia.
    eexists. split; [done |].
    rewrite interleave_filter_primary by apply baseSequence_primary.
    split; [done | exact Hunshuffled].
Qed.

Lemma primary_items_keep_their_order_witness :
  exists seq,
    buildPlaybackSequence alwaysFirst 5 fiveAndTwo true = Some seq /\
    filter primary seq = baseSequence alwaysFirst fiveAndTwo true.
Proof.
  destruct (primary_items_keep_their_order alwaysFirst 5 fiveAndTwo true)
    as (seq & Hb & Hf & _).
  - vm_compute. lia.
  - exists seq. split; [exact Hb | exact Hf].
Defined.

Lemma interleave_mask streams rest1 : forall rest2 k,
  length rest1 = length rest2 ->
  Forall primary rest1 -> Forall primary rest2 ->
  maskPrimary (interleave streams k rest1) = maskPrimary (interleave streams k rest2).
Proof.
  unfold maskPrimary.
  induction rest1 as [| b1 rest1 IH]; intros [| b2 rest2] k Hlen H1 H2;
    try discriminate; [done |].
  inversion H1; inversion H2; subst.
  cbn [interleave map]. rewrite !map_app, !decide_True by done.
  f_equal. f_equal. apply IH; [by injection Hlen | done | done].
Qed.

Lemma interleave_permutation streams rest : forall k,
  interleave streams k rest ≡ₚ
  rest ++ flat_map (dueItems streams) (seq (S k) (length rest)).
Proof.
  induction rest as [| b rest IH]; intros k; [done |].
  cbn [interleave length seq flat_map app]. rewrite IH.
  apply Permutation_skip. rewrite !app_assoc.
  apply Permutation_app_tail, Permutation_app_comm.
Qed.

(** X3.  Shuffle moves primary items among the primary slots only: with
    and without shuffle the output has the same interstitial items at the
    same positions, and the same items overall. *)
Theorem shuffle_moves_only_primary_items (randomIndex : nat -> nat) (fuel : nat)
    (streams : list StreamWithItems) :
  drawsInRange randomIndex ->
  (primaryCount streams <= fuel)%nat ->
  exists shuffled plain,
    buildPlaybackSequence randomIndex fuel streams true = Some shuffled /\
    buildPlaybackSequence randomIndex fuel streams false = Some plain /\
    maskPrimary shuffled = maskPrimary plain /\
    shuffled ≡ₚ plain.
Proof.
  intros _ Hfuel.
  destruct (decide (primaryCount streams = 0%nat)) as [H0 | Hpos].
  - rewrite !buildPlaybackSequence_empty_base by done.
    eexists _, _. repeat split; done.
  - rewrite !buildPlaybackSequence_interleave by lia.
    eexists _, _. split; [done |]. split; [done |]. split.
    + apply interleave_mask; [| apply baseSequence_primary..].
      by rewrite !baseSequence_length.
    + rewrite !interleave_permutation, !baseSequence_length.
      apply Permutation_app_tail.
      by rewrite !baseSequence_permutation.
Qed.

Lemma shuffle_moves_only_primary_items_witness :
  exists shuffled plain,
    buildPlaybackSequence alwaysFirst 5 fiveAndTwo true = Some shuffled /\
    buildPlaybackSequence alwaysFirst 5 fiveAndTwo false = Some plain /\
    maskPrimary shuffled = maskPrimary plain.
Proof.
  destruct (shuffle_moves_only_primary_items alwaysFirst 5 fiveAndTwo
              alwaysFirst_in_range)
    as (shuffled & plain & H1 & H2 & H3 & _).
  - vm_compute. lia.
  - exists shuffled, plain. split; [exact H1 |]. split; [exact H2 | exact H3].
Defined.

Lemma dueAt_below F k : 0 < k < F -> ~ dueAt F k.
Proof. intros Hk [_ Hmod]. rewrite Z.mod_small in Hmod; lia. Qed.

Lemma dueItems_early streams (N k : nat) :
  (forall s, s ∈ frequencyStreams streams -> Z.of_nat N <= streamFrequency s) ->
  (0 < k < N)%nat ->
  dueItems streams k = [].
Proof.
  intros Hfreq Hk. unfold dueItems.
  induction (frequencyStreams streams) as [| s l IH]; [done |].
  cbn [flat_map]. rewrite IH by (intros s' Hs'; apply Hfreq; by right).
  rewrite decide_False; [done |].
  apply dueAt_below. specialize (Hfreq s ltac:(left)). lia.
Qed.

Lemma interleave_late streams (N : nat) rest : forall k,
  (forall s, s ∈ frequencyStreams streams -> Z.of_nat N <= streamFrequency s) ->
  (k + length rest = N)%nat ->
  (0 < length rest)%nat ->
  interleave streams k rest = rest ++ dueItems streams N.
Proof.
  induction rest as [| b rest IH]; intros k Hfreq Hk Hlen; [simpl in Hlen; lia |].
  cbn [interleave length] in *.
  destruct rest as [| b' rest].
  - cbn [interleave length app] in *. rewrite app_nil_r.
    by replace (S k) with N by lia.
  - rewrite (dueItems_early streams N) by (cbn [length] in *; done || lia).
    cbn [app]. f_equal. apply IH; cbn [length] in *; [done | lia | lia].
Qed.

(** X4.  When no interstitial stream has a frequency below the number
    [N] of primary items, nothing is inserted between the primary items:
    the output is the base sequence followed by the items of the streams
    whose frequency is exactly [N]; a stream with a larger frequency is
    never shown. *)
Theorem frequency_not_below_base_length (randomIndex : nat -> nat) (fuel : nat)
    (streams : list StreamWithItems) (shuffle : bool) :
  let N := primaryCount streams in
  (0 < N)%nat -> (N <= fuel)%nat ->
  (forall s, s ∈ frequencyStreams streams -> Z.of_nat N <= streamFrequency s) ->
  buildPlaybackSequence randomIndex fuel streams shuffle =
    Some (baseSequence randomIndex streams shuffle ++
          flat_map (fun s => if decide (streamFrequency s = Z.of_nat N)
                             then map (enhance s) (items s) else [])
                   (frequencyStreams streams)).
Proof.
  intros N Hpos Hfuel Hfreq.
  rewrite buildPlaybackSequence_interleave by done.
  rewrite (interleave_late streams N)
    by (rewrite ?baseSequence_length; done || lia).
  do 2 f_equal. unfold dueItems.
  induction (frequencyStreams streams) as [| s l IH]; [done |].
  cbn [flat_map]. rewrite IH by (intros s' Hs'; apply Hfreq; by right).
  f_equal. specialize (Hfreq s ltac:(left)).
  destruct (decide (streamFrequency s = Z.of_nat N)) as [E | NE].
  - rewrite decide_True; [done |]. split; [lia |]. rewrite E. apply Z.mod_same. lia.
  - rewrite decide_False; [done |]. apply dueAt_below. lia.
Qed.

Lemma frequency_not_below_base_length_witness :
  names (buildPlaybackSequence alwaysFirst 2 twoAndLate false) = Some ["A"; "B"; "X"].
Proof.
  assert (Hpos : (0 < primaryCount twoAndLate)%nat) by (vm_compute; lia).
  assert (Hfuel : (primaryCount twoAndLate <= 2)%nat) by (vm_compute; lia).
  rewrite (frequency_not_below_base_length alwaysFirst 2 twoAndLate false Hpos Hfuel).
  - reflexivity.
  - intros s Hs. vm_compute in Hs.
    apply list_elem_of_In in Hs. destruct Hs as [<- | [<- | []]]; vm_compute; discriminate.
Defined.

Lemma enhanced_fromStreams streams l :
  (forall s, s ∈ l -> s ∈ streams) ->
  Forall (fromStreams streams) (flat_map (fun s => map (enhance s) (items s)) l).
Proof.
  intros Hsub. apply Forall_forall. intros e He.
  apply list_elem_of_In, in_flat_map in He as (s & Hs & He).
  apply in_map_iff in He as (i & <- & Hi).
  exists s. split; [apply Hsub; by apply list_elem_of_In |].
  split; [by apply list_elem_of_In | done].
Qed.

Lemma dueItems_fromStreams streams k : Forall (fromStreams streams) (dueItems streams k).
Proof.
  unfold dueItems. apply Forall_forall. intros e He.
  apply list_elem_of_In, in_flat_map in He as (s & Hs & He).
  apply list_elem_of_In, frequencyStreams_interstitial in Hs as [Hs _].
  destruct (decide _); [| done].
  apply in_map_iff in He as (i & <- & Hi).
  exists s. split; [done |]. split; [by apply list_elem_of_In | done].
Qed.

(** X5.  Every item of the output is an item of one of the streams and
    carries the settings and the type of the stream that owns it, and
    every item of every slideshow stream is in the output, with the
    settings and the type of its stream. *)
Theorem output_items_come_from_their_streams (randomIndex : nat -> nat) (fuel : nat)
    (streams : list StreamWithItems) (shuffle : bool) :
  (primaryCount streams <= fuel)%nat ->
  exists seq,
    buildPlaybackSequence randomIndex fuel streams shuffle = Some seq /\
    Forall (fromStreams streams) seq /\
    (forall s i, s ∈ streams -> type s = "slideshow" -> i ∈ items s ->
       {| item := i; streamSettings := settings s; streamType := type s |} ∈ seq).
Proof.
  intros Hfuel.
  assert (Hbase : Forall (fromStreams streams) (baseSequence randomIndex streams shuffle)).
  { rewrite baseSequence_permutation. apply enhanced_fromStreams.
    intros s Hs. unfold slideshowStreams in Hs. by apply list_elem_of_filter in Hs as [_ ?]. }
  assert (Hin : forall s i, s ∈ streams -> type s = "slideshow" -> i ∈ items s ->
                  {| item := i; streamSettings := settings s; streamType := type s |}
                  ∈ baseSequence randomIndex streams shuffle).
  { intros s i Hs Ht Hi. rewrite baseSequence_permutation.
    apply list_elem_of_In, in_flat_map. exists s. split.
    - apply list_elem_of_In. unfold slideshowStreams. by apply list_elem_of_filter.
    - apply in_map_iff. exists i. split; [reflexivity | by apply list_elem_of_In]. }
  destruct (decide (primaryCount streams = 0%nat)) as [H0 | Hpos].
  - rewrite buildPlaybackSequence_empty_base by done.
    eexists. split; [done |]. split.
    + apply enhanced_fromStreams. intros s Hs.
      by apply frequencyStreams_interstitial in Hs as [? _].
    + intros s i Hs Ht Hi. specialize (Hin s i Hs Ht Hi).
      assert (Hnil : baseSequence randomIndex streams shuffle = []).
      { apply length_zero_iff_nil. by rewrite baseSequence_length. }
      rewrite Hnil in Hin. by apply elem_of_nil in Hin.
  - rewrite buildPlaybackSequence_interleave by lia.
    eexists. split; [done |]. split.
    + rewrite interleave_permutation. apply Forall_app. split; [done |].
      apply Forall_forall. intros e He.
      apply list_elem_of_In, in_flat_map in He as (k & _ & He).
      apply list_elem_of_In in He.
      by apply (proj1 (Forall_forall _ _) (dueItems_fromStreams streams k)).
    + intros s i Hs Ht Hi. rewrite interleave_permutation.
      apply elem_of_app. left. by apply Hin.
Qed.

(** Six slides, a video every three and a photo every two: the video in
    the output carries the video stream's settings and type, and the
    first slide those of the slideshow stream. *)
Lemma output_items_come_from_their_streams_witness :
  exists seq,
    buildPlaybackSequence alwaysFirst 6 sixMixed false = Some seq /\
    (forall e, e ∈ seq -> item e = photo "V" ->
       streamSettings e = settings videoEveryThree /\ streamType e = "video") /\
    {| item := photo "1";
       streamSettings := Some {| duration := JMissing; transition := None;
                                 transitionSpeed := None; frequency := JMissing |};
       streamType := "slideshow" |} ∈ seq.
Proof.
  destruct (output_items_come_from_their_streams alwaysFirst 6 sixMixed false)
    as (seq & Hb & Hf & Hin).
  - vm_compute. lia.
  - exists seq. split; [exact Hb |]. split.
    + intros e He Hitem.
      destruct (proj1 (Forall_forall _ _) Hf e He) as (s & Hs & Hi & Hset & Hty).
      rewrite Hset, Hty, Hitem in *. clear Hset Hty Hitem.
      unfold sixMixed in Hs.
      repeat (apply elem_of_cons in Hs as [-> | Hs]);
        [.. | by apply elem_of_nil in Hs].
      * vm_compute in Hi.
        repeat (apply elem_of_cons in Hi as [Hi | Hi]; [discriminate Hi |]).
        by apply elem_of_nil in Hi.
      * done.
      * vm_compute in Hi.
        repeat (apply elem_of_cons in Hi as [Hi | Hi]; [discriminate Hi |]).
        by apply elem_of_nil in Hi.
    + apply (Hin (stream "slideshow" JMissing ["1"; "2"; "3"; "4"; "5"; "6"])
                 (photo "1")).
      * unfold sixMixed. left.
      * reflexivity.
      * cbn. left.
Defined.

(** *** The sequencer against the configured stream data *)

(** The sequencer reads the configured frequency. *)
Lemma streamFrequency_configured (s : StreamWithItems) :
  streamFrequency s = configuredFrequency s.
Proof.
  unfold streamFrequency, settingsFrequency, configuredFrequency, getValue.
  destruct (settings s) as [st |]; [| done].
  by destruct (frequency st) as [| F | [F |]].
Qed.

(** The sequencer's frequency streams are the interstitial streams. *)
Lemma frequencyStreams_elem (streams : list StreamWithItems) (s : StreamWithItems) :
  s ∈ frequencyStreams streams <-> s ∈ streams /\ interstitial s.
Proof.
  unfold frequencyStreams, singlePhotoStreams, videoStreams, interstitial.
  rewrite elem_of_app, !list_elem_of_filter. tauto.
Qed.

Lemma frequencyStreams_permutation (streams : list StreamWithItems) :
  frequencyStreams streams ≡ₚ filter interstitial streams.
Proof.
  unfold frequencyStreams, singlePhotoStreams, videoStreams.
  induction streams as [| s l IH]; [done |].
  rewrite (filter_cons interstitial),
          (filter_cons (fun s => type s = "single-photo")),
          (filter_cons (fun s => type s = "video")).
  destruct (decide (interstitial s)) as [Hi | Hi];
    destruct (decide (type s = "single-photo")) as [Hp | Hp];
    destruct (decide (type s = "video")) as [Hv | Hv];
    unfold interstitial in Hi; try tauto.
  - rewrite Hp in Hv. discriminate.
  - cbn [app]. by rewrite IH.
  - rewrite <- Permutation_middle. by rewrite IH.
Qed.

Lemma frequencyStreams_single (streams : list StreamWithItems) (s : StreamWithItems) :
  filter interstitial streams = [s] -> frequencyStreams streams = [s].
Proof.
  intros Hs. apply Permutation_singleton_r.
  by rewrite frequencyStreams_permutation, Hs.
Qed.

Lemma primaryCount_items (streams : list StreamWithItems) :
  primaryCount streams = length (primaryItems streams).
Proof.
  unfold primaryCount, primaryItems, slideshowStreams.
  induction (filter _ streams) as [| s l IH]; [done |].
  cbn [map sum_list sum_list_with flat_map]. rewrite length_app. by rewrite IH.
Qed.

Lemma interleave_withSlots (streams : list StreamWithItems)
    (rest : list EnhancedStreamItem) : forall k,
  interleave streams k rest = withSlots (dueItems streams) k rest.
Proof.
  induction rest as [| b rest IH]; intros k; [done |].
  cbn [interleave withSlots]. by rewrite IH.
Qed.

Lemma sumZ_permutation (l1 l2 : list Z) : l1 ≡ₚ l2 -> sumZ l1 = sumZ l2.
Proof.
  unfold sumZ. induction 1 as [| x l l' _ IH | x y l | l l' l'' _ IH1 _ IH2];
    simpl; lia.
Qed.

Lemma sum_over_interstitial (streams : list StreamWithItems) (N : Z) :
  sumZ (map (fun F => N / F) (interstitialFrequencies streams)) =
  sumZ (flat_map (fun s => map (fun _ => N / configuredFrequency s) (items s))
                 (filter interstitial streams)).
Proof.
  unfold interstitialFrequencies.
  transitivity (sumZ (flat_map (fun s => map (fun _ => N / configuredFrequency s) (items s))
                               (frequencyStreams streams))).
  - f_equal. induction (frequencyStreams streams) as [| s l IH]; [done |].
    cbn [flat_map]. rewrite map_app, IH, map_map, streamFrequency_configured. done.
  - apply sumZ_permutation, Permutation_flat_map, frequencyStreams_permutation.
Qed.

Lemma dueItems_elem (streams : list StreamWithItems) (k : nat) (e : EnhancedStreamItem) :
  e ∈ dueItems streams k <->
  exists s x, s ∈ streams /\ interstitial s /\ x ∈ items s /\
              dueAt (configuredFrequency s) (Z.of_nat k) /\
              e = {| item := x; streamSettings := settings s; streamType := type s |}.
Proof.
  unfold dueItems. rewrite list_elem_of_In, in_flat_map. split.
  - intros (s & Hs & He).
    apply list_elem_of_In, frequencyStreams_elem in Hs as [Hs Hi].
    rewrite streamFrequency_configured in He.
    destruct (decide _) as [Hdue |]; [| done].
    apply in_map_iff in He as (x & <- & Hx).
    exists s, x. split; [done |]. split; [done |].
    split; [by apply list_elem_of_In | done].
  - intros (s & x & Hs & Hi & Hx & Hdue & ->).
    exists s. split; [by apply list_elem_of_In, frequencyStreams_elem |].
    rewrite streamFrequency_configured, decide_True by done.
    apply in_map_iff. exists x. split; [done | by apply list_elem_of_In].
Qed.

Lemma dueItems_single (streams : list StreamWithItems) (s : StreamWithItems)
    (x : StreamItem) (k : nat) :
  filter interstitial streams = [s] -> items s = [x] ->
  dueItems streams k =
  if decide (dueAt (configuredFrequency s) (Z.of_nat k))
  then [{| item := x; streamSettings := settings s; streamType := type s |}]
  else [].
Proof.
  intros Hs Hx. unfold dueItems. rewrite (frequencyStreams_single _ _ Hs).
  cbn [flat_map]. rewrite Hx, app_nil_r, streamFrequency_configured.
  by destruct (decide _).
Qed.

Lemma filter_all {A} (P : A -> Prop) `{!forall x, Decision (P x)} (l : list A) :
  Forall P l -> filter P l = l.
Proof.
  induction 1 as [| x l Hx _ IH]; [done |].
  by rewrite filter_cons_True, IH.
Qed.

(** What is left of the output when the primary items are taken out. *)
Lemma interleave_filter_interstitial (streams : list StreamWithItems)
    (rest : list EnhancedStreamItem) : forall k,
  Forall primary rest ->
  filter (fun e => streamType e <> "slideshow") (interleave streams k rest) =
  flat_map (dueItems streams) (seq (S k) (length rest)).
Proof.
  induction rest as [| b rest IH]; intros k Hall; [done |].
  inversion Hall as [| ? ? Hb Hrest]; subst.
  cbn [interleave length seq flat_map].
  rewrite filter_cons_False by (intros Hn; by apply Hn).
  rewrite filter_app, IH by done. f_equal.
  apply filter_all. exact (dueItems_not_primary streams (S k)).
Qed.

Lemma insertions_nonneg (F : Z) (n : nat) : 0 <= insertions F n.
Proof.
  unfold insertions. destruct (0 <? F) eqn:E; [| done].
  apply Z.ltb_lt in E. apply Z.div_pos; lia.
Qed.

(** One item due at the multiples of [F]: it comes [n / F] times in the
    slots of the first [n] base items. *)
Lemma single_item_copies (streams : list StreamWithItems) (F : Z)
    (e : EnhancedStreamItem) (n : nat) :
  (forall k, dueItems streams k = if decide (dueAt F (Z.of_nat k)) then [e] else []) ->
  flat_map (dueItems streams) (seq 1 n) = replicate (Z.to_nat (insertions F n)) e.
Proof.
  intros Hdue. induction n as [| n IH].
  - cbn [seq flat_map]. unfold insertions.
    destruct (0 <? F) eqn:E; [| done].
    change (Z.of_nat 0) with 0. by rewrite Z.div_0_l by (apply Z.ltb_lt in E; lia).
  - rewrite seq_S, flat_map_app, IH. cbn [flat_map]. rewrite app_nil_r.
    rewrite insertions_succ, Hdue. change (1 + n)%nat with (S n).
    pose proof (insertions_nonneg F n).
    destruct (decide _).
    + rewrite Z2Nat.inj_add by lia. by rewrite replicate_add.
    + by rewrite Z.add_0_r, app_nil_r.
Qed.

(** C1.  Frequencies are integers (the settings form stores the result
    of [parseInt], and the default is 5).  Let [N] be the number of items
    of the streams of kind [slideshow].  When the frequency [F]
    configured for every stream of kind [single-photo] or [video]
    satisfies [1 <= F <= N], the sequencer returns a sequence of length
    [N] plus the sum, over the items of those streams, of [N / F], the
    integer quotient, for the frequency configured for the item's stream.
    With a single interstitial stream holding a single item the length is
    [N + N / F], and what the output holds besides the primary items is
    that item, [N / F] times. *)
Theorem sequence_length (randomIndex : nat -> nat) (fuel : nat)
    (streams : list StreamWithItems) (shuffle : bool) :
  let N := length (primaryItems streams) in
  (forall s, s ∈ streams -> interstitial s ->
             1 <= configuredFrequency s <= Z.of_nat N) ->
  (N <= fuel)%nat ->
  exists seq,
    buildPlaybackSequence randomIndex fuel streams shuffle = Some seq /\
    Z.of_nat (length seq) =
      Z.of_nat N
      + sumZ (flat_map (fun s => map (fun _ => Z.of_nat N / configuredFrequency s)
                                     (items s))
                       (filter interstitial streams)) /\
    (forall s x, filter interstitial streams = [s] -> items s = [x] ->
       Z.of_nat (length seq) = Z.of_nat N + Z.of_nat N / configuredFrequency s /\
       filter (fun e => streamType e <> "slideshow") seq =
         replicate (Z.to_nat (Z.of_nat N / configuredFrequency s))
                   {| item := x; streamSettings := settings s; streamType := type s |}).
Proof.
  intros N Hfreq Hfuel. subst N. rewrite <- primaryCount_items in *.
  set (N := primaryCount streams) in *.
  assert (Hcode : forall s, s ∈ frequencyStreams streams ->
                            1 <= streamFrequency s <= Z.of_nat N).
  { intros s Hs. apply frequencyStreams_elem in Hs as [Hs Hi].
    rewrite streamFrequency_configured. by apply Hfreq. }
  destruct (decide (N = 0%nat)) as [H0 | Hpos].
  - (* no primary item: the bounds leave no interstitial stream *)
    assert (Hnone : filter interstitial streams = []).
    { destruct (filter interstitial streams) as [| s l] eqn:E; [done |].
      assert (Hs : s ∈ filter interstitial streams) by (rewrite E; left).
      apply list_elem_of_filter in Hs as [Hi Hs]. specialize (Hfreq s Hs Hi). lia. }
    assert (Hnil : frequencyStreams streams = []).
    { apply Permutation_nil_r. by rewrite frequencyStreams_permutation, Hnone. }
    rewrite buildPlaybackSequence_empty_base by done.
    eexists. split; [done |]. rewrite Hnil, Hnone. cbn [flat_map length sumZ foldr].
    split; [lia |]. intros s x Hs. discriminate Hs.
  - rewrite buildPlaybackSequence_interleave by (fold N; lia).
    eexists. split; [done |].
    assert (Hlen : Z.of_nat (length (interleave streams 0
                                (baseSequence randomIndex streams shuffle))) =
                   Z.of_nat N
                   + sumZ (flat_map (fun s => map (fun _ => Z.of_nat N / configuredFrequency s)
                                                  (items s))
                                    (filter interstitial streams))).
    { rewrite interleave_length, baseSequence_length, totalInsertions_0.
      fold N. rewrite Nat.add_0_l.
      rewrite totalInsertions_positive, sum_over_interstitial; [lia |].
      intros s Hs. specialize (Hcode s Hs). lia. }
    split; [exact Hlen |].
    intros s x Hs Hx. split.
    + rewrite Hlen, Hs. cbn [flat_map]. rewrite Hx. simpl. lia.
    + rewrite interleave_filter_interstitial by apply baseSequence_primary.
      rewrite baseSequence_length. fold N.
      rewrite (single_item_copies streams (configuredFrequency s)
                 {| item := x; streamSettings := settings s; streamType := type s |})
        by (intros k; by apply dueItems_single).
      assert (Hin : s ∈ filter interstitial streams) by (rewrite Hs; left).
      apply list_elem_of_filter in Hin as [Hi Hin]. specialize (Hfreq s Hin Hi).
      unfold insertions. by rewrite (proj2 (Z.ltb_lt _ _)) by lia.
Qed.

(** C5.  With at least one primary item the output is the base sequence
    ([N] items, all of kind [slideshow]: the primary items, in stream and
    item order when not shuffled, rearranged otherwise) with a slot after
    each base item.  An
    item of a stream of kind [single-photo] or [video] whose configured
    frequency [F] satisfies [1 <= F <= N] is in the slot after the [k]-th
    base item exactly when [k] is one of [F, 2F, ..., (N / F) * F]; a slot
    holds nothing but interstitial items due at its position, so the item
    is nowhere else; and a single interstitial item is alone in its
    slots, so it directly follows those base items.  With twenty slides
    and frequency five the item follows slides 5, 10, 15 and 20. *)
Theorem insertion_positions (randomIndex : nat -> nat) (fuel : nat)
    (streams : list StreamWithItems) (shuffle : bool) :
  let N := length (primaryItems streams) in
  (0 < N)%nat -> (N <= fuel)%nat ->
  exists base slot,
    buildPlaybackSequence randomIndex fuel streams shuffle =
      Some (withSlots slot 0 base) /\
    base = baseSequence randomIndex streams shuffle /\
    length base = N /\
    Forall (fun e => streamType e = "slideshow") base /\
    base ≡ₚ flat_map (fun s => map (fun i => {| item := i;
                                                 streamSettings := settings s;
                                                 streamType := type s |})
                                    (items s))
                     (filter (fun s => type s = "slideshow") streams) /\
    (shuffle = false ->
     base = flat_map (fun s => map (fun i => {| item := i;
                                                streamSettings := settings s;
                                                streamType := type s |})
                                   (items s))
                     (filter (fun s => type s = "slideshow") streams)) /\
    (forall s x k, s ∈ streams -> interstitial s -> x ∈ items s ->
       1 <= configuredFrequency s <= Z.of_nat N -> (1 <= k <= N)%nat ->
       ({| item := x; streamSettings := settings s; streamType := type s |} ∈ slot k <->
        exists m, 1 <= m <= Z.of_nat N / configuredFrequency s /\
                  Z.of_nat k = m * configuredFrequency s)) /\
    (forall k e, e ∈ slot k ->
       exists s x, s ∈ streams /\ interstitial s /\ x ∈ items s /\
                   dueAt (configuredFrequency s) (Z.of_nat k) /\
                   e = {| item := x; streamSettings := settings s;
                          streamType := type s |}) /\
    (forall s x k, filter interstitial streams = [s] -> items s = [x] ->
       slot k =
       if decide (dueAt (configuredFrequency s) (Z.of_nat k))
       then [{| item := x; streamSettings := settings s; streamType := type s |}]
       else []) /\
    names (buildPlaybackSequence randomIndex 20 twentyAndFive false) =
      Some ["1"; "2"; "3"; "4"; "5"; "X"; "6"; "7"; "8"; "9"; "10"; "X";
            "11"; "12"; "13"; "14"; "15"; "X"; "16"; "17"; "18"; "19"; "20"; "X"].
Proof.
  intros N Hpos Hfuel. subst N. rewrite <- primaryCount_items in *.
  exists (baseSequence randomIndex streams shuffle), (dueItems streams).
  split.
  { rewrite buildPlaybackSequence_interleave by done.
    by rewrite interleave_withSlots. }
  split; [done |]. split; [apply baseSequence_length |].
  split; [apply baseSequence_primary |].
  split; [apply baseSequence_permutation |].
  split.
  { intros ->. unfold baseSequence. cbn. apply collectBaseItems_flat. }
  split.
  { intros s x k Hs Hi Hx HF Hk.
    rewrite <- (dueAt_multiples (configuredFrequency s) (Z.of_nat k)
                                (Z.of_nat (primaryCount streams))) by lia.
    rewrite dueItems_elem. split.
    - intros (s' & x' & _ & _ & _ & Hdue & He).
      injection He as _ Hset _.
      unfold configuredFrequency in *. by rewrite Hset.
    - intros Hdue. by exists s, x. }
  split; [intros k e He; by apply dueItems_elem |].
  split; [intros s x k Hs Hx; by apply dueItems_single |].
  by vm_compute.
Qed.

(** [sequence_length] at six slides, a video every three slides and a
    photo every two: 6 + 6 / 3 + 6 / 2 = 11 items; and at five slides
    and one video every two: the video comes 5 / 2 = 2 times. *)
Lemma sequence_length_witness :
  (exists seq,
     buildPlaybackSequence alwaysFirst 6 sixMixed false = Some seq /\
     Z.of_nat (length seq) = 6 + (6 / 3 + (6 / 2 + 0))) /\
  (exists seq,
     buildPlaybackSequence alwaysFirst 5 fiveAndVideo true = Some seq /\
     Z.of_nat (length seq) = 5 + 5 / 2 /\
     map (fun e => item_id (item e))
         (filter (fun e => streamType e <> "slideshow") seq) = ["V"; "V"]).
Proof.
  split.
  - destruct (sequence_length alwaysFirst 6 sixMixed false) as (seq & Hb & Hl & _).
    + intros s Hs Hi. unfold sixMixed in Hs.
      repeat (apply elem_of_cons in Hs as [-> | Hs]);
        [.. | by apply elem_of_nil in Hs]; vm_compute; split; discriminate.
    + vm_compute. lia.
    + exists seq. split; [exact Hb |]. rewrite Hl. reflexivity.
  - destruct (sequence_length alwaysFirst 5 fiveAndVideo true) as (seq & Hb & _ & Hone).
    + intros s Hs Hi. unfold fiveAndVideo in Hs.
      repeat (apply elem_of_cons in Hs as [-> | Hs]);
        [.. | by apply elem_of_nil in Hs]; vm_compute; split; discriminate.
    + vm_compute. lia.
    + destruct (Hone (stream "video" (JPlain 2) ["V"]) (photo "V") eq_refl eq_refl)
        as [Hl Hf].
      exists seq. split; [exact Hb |]. split; [exact Hl |].
      rewrite Hf. reflexivity.
Defined.

(** [insertion_positions] at six slides, a video every three slides and
    a photo every two: the video is in the slots after the third and the
    sixth slide and in no slot before or between them. *)
Lemma insertion_positions_witness :
  exists base slot,
    buildPlaybackSequence alwaysFirst 6 sixMixed false = Some (withSlots slot 0 base) /\
    map (fun e => item_id (item e)) base = ["1"; "2"; "3"; "4"; "5"; "6"] /\
    (forall k, (1 <= k <= 6)%nat ->
       {| item := photo "V"; streamSettings := settings videoEveryThree;
          streamType := "video" |} ∈ slot k <-> k = 3%nat \/ k = 6%nat) /\
    names (buildPlaybackSequence alwaysFirst 6 sixMixed false) =
      Some ["1"; "2"; "X"; "3"; "V"; "4"; "X"; "5"; "6"; "X"; "V"].
Proof.
  assert (H1 : (0 < length (primaryItems sixMixed))%nat) by (vm_compute; lia).
  assert (H2 : (length (primaryItems sixMixed) <= 6)%nat) by (vm_compute; lia).
  destruct (insertion_positions alwaysFirst 6 sixMixed false H1 H2)
    as (base & slot & Hb & _ & _ & _ & _ & Hbase & Hslot & _).
  exists base, slot. split; [exact Hb |].
  split; [by rewrite (Hbase eq_refl) |].
  split; [| reflexivity].
  intros k Hk.
  rewrite (Hslot videoEveryThree (photo "V") k).
  - change (configuredFrequency videoEveryThree) with 3.
    change (Z.of_nat (length (primaryItems sixMixed))) with 6.
    change (6 / 3) with 2. split.
    + intros (m & Hm & Hkm). lia.
    + intros [-> | ->]; [exists 1 | exists 2]; lia.
  - unfold sixMixed. right. left.
  - right. reflexivity.
  - cbn. left.
  - vm_compute. split; discriminate.
  - exact Hk.
Defined.

(* ===================================================================== *)
(** ** More on the preview: local controls and repeated advances *)
(* ===================================================================== *)

Section PlayerFacts.
Import Preview Player.
Variable allItems : list EnhancedStreamItem.
Variable slideshow : option SlideshowSettings.

(** X6.  On a non-empty list the remote commands [next] and [previous]
    do what the local controls do: [handleCommand] agrees with
    [handleNext] and [handlePrevious], which are also what the arrow keys
    run. *)
Theorem remote_commands_match_local_controls (st : PreviewState) :
  (0 < length allItems)%nat ->
  handleCommand allItems slideshow "next" st = Updated (handleNext allItems slideshow st) /\
  handleCommand allItems slideshow "previous" st = Updated (handlePrevious allItems st) /\
  handleKeyPress allItems slideshow "ArrowRight" st = handleNext allItems slideshow st /\
  handleKeyPress allItems slideshow "ArrowLeft" st = handlePrevious allItems st.
Proof.
  intros Hne. destruct st as [i p b].
  repeat split; cbn [handleCommand handleKeyPress]; unfold handleNext, handlePrevious;
    split_tests; try reflexivity; lia.
Qed.

(** X8.  With the index in range, [handlePrevious] undoes [handleNext]
    unless [handleNext] stopped at the last item of a slideshow that does
    not loop, and [handleNext] undoes [handlePrevious] unless the
    slideshow does not loop and [handlePrevious] wrapped around from the
    first item. *)
Theorem previous_undoes_next (st : PreviewState) :
  (0 < length allItems)%nat ->
  indexInRange allItems st ->
  (loopEnabled slideshow = true \/ currentIndex st < Z.of_nat (length allItems) - 1 ->
   handlePrevious allItems (handleNext allItems slideshow st) = st) /\
  (loopEnabled slideshow = true \/ 0 < currentIndex st ->
   handleNext allItems slideshow (handlePrevious allItems st) = st).
Proof.
  intros Hne Hin. unfold indexInRange in Hin. destruct st as [i p b].
  cbn [currentIndex] in *.
  assert (Hlen : (length allItems =? 0)%nat = false) by (apply Nat.eqb_neq; lia).
  destruct (loopEnabled slideshow) eqn:El.
  - split; intros _; unfold handleNext, handlePrevious; rewrite ?Hlen, ?El;
      split_tests; rewrite ?Hlen, ?El; split_tests;
      unfold setCurrentIndex, setIsPlaying in *; simpl in *;
      try lia; f_equal; lia.
  - split; (intros [Hd | Hmove]; [discriminate |]);
      unfold handleNext, handlePrevious; rewrite ?Hlen, ?El;
      split_tests; rewrite ?Hlen, ?El; split_tests;
      unfold setCurrentIndex, setIsPlaying in *; simpl in *;
      try lia; f_equal; lia.
Qed.

Lemma next_step_loop (st : PreviewState) :
  (0 < length allItems)%nat ->
  loopEnabled slideshow = true ->
  indexInRange allItems st ->
  handleNext allItems slideshow st =
  setCurrentIndex ((currentIndex st + 1) mod Z.of_nat (length allItems)) st.
Proof.
  intros Hne Hloop Hin. unfold indexInRange in Hin. unfold handleNext.
  rewrite Hloop. split_tests; try lia.
  - replace (currentIndex st + 1) with (Z.of_nat (length allItems)) by lia.
    by rewrite Z.mod_same by lia.
  - by rewrite Z.mod_small by lia.
Qed.

(** X7.  [n] advances from an in-range index: with looping the index is
    [(i + n) mod L] and playback goes on; without looping the index stops
    at [L - 1], playback is switched off by the advance that finds the
    last item, and from then on the advance timer is not armed.  The
    black screen is never touched. *)
Theorem repeated_next (st : PreviewState) (n : nat) :
  (0 < length allItems)%nat ->
  indexInRange allItems st ->
  let L := Z.of_nat (length allItems) in
  let st' := Nat.iter n (handleNext allItems slideshow) st in
  isBlackScreen st' = isBlackScreen st /\
  (loopEnabled slideshow = true ->
     currentIndex st' = (currentIndex st + Z.of_nat n) mod L /\
     isPlaying st' = isPlaying st) /\
  (loopEnabled slideshow = false ->
     currentIndex st' = Z.min (currentIndex st + Z.of_nat n) (L - 1) /\
     isPlaying st' = isPlaying st && (currentIndex st + Z.of_nat n <? L) /\
     (L <= currentIndex st + Z.of_nat n ->
      forall defaultDuration, autoAdvance allItems defaultDuration st' = None)).
Proof.
  intros Hne Hin L st'. subst L st'. unfold indexInRange in Hin.
  induction n as [| n IH].
  - change (Nat.iter 0 (handleNext allItems slideshow) st) with st.
    split; [done |]. split.
    + intros _. rewrite Z.add_0_r, Z.mod_small by lia. done.
    + intros _. rewrite Z.add_0_r. split; [lia |]. split; [| lia].
      rewrite (proj2 (Z.ltb_lt _ _)) by lia. by rewrite andb_true_r.
  - rewrite Nat.iter_succ. set (prev := Nat.iter n (handleNext allItems slideshow) st) in *.
    destruct IH as (Hb & Hloop & Hstop).
    destruct (loopEnabled slideshow) eqn:El.
    + destruct (Hloop eq_refl) as [Hi Hp]. clear Hstop.
      assert (Hr : indexInRange allItems prev).
      { unfold indexInRange. rewrite Hi. apply Z.mod_pos_bound. lia. }
      rewrite (next_step_loop prev Hne El Hr).
      cbn [setCurrentIndex currentIndex isPlaying isBlackScreen].
      split; [done |]. split; [| intros; discriminate]. intros _. split; [| done].
      rewrite Hi, Zplus_mod_idemp_l. f_equal. lia.
    + destruct (Hstop eq_refl) as (Hi & Hp & _). clear Hloop.
      assert (Hlen : (length allItems =? 0)%nat = false) by (apply Nat.eqb_neq; lia).
      unfold handleNext. rewrite El, Hlen.
      destruct (Z.leb_spec (Z.of_nat (length allItems)) (currentIndex prev + 1)) as [Hend | Hmid];
        rewrite Z.geb_leb;
        [ rewrite (proj2 (Z.leb_le _ _)) by done
        | rewrite (proj2 (Z.leb_gt _ _)) by done ];
        cbn [setCurrentIndex setIsPlaying currentIndex isPlaying isBlackScreen];
        (split; [done |]); (split; [intros; discriminate |]); intros _.
      * split; [lia |]. split.
        -- rewrite (proj2 (Z.ltb_ge _ _)) by lia. by rewrite andb_false_r.
        -- intros _ d. unfold autoAdvance. done.
      * split; [lia |]. split; [| lia].
        rewrite Hp. f_equal.
        rewrite (proj2 (Z.ltb_lt (currentIndex st + Z.of_nat n) _)) by lia.
        rewrite (proj2 (Z.ltb_lt _ _)) by lia. done.
Qed.
End PlayerFacts.

Lemma remote_commands_match_local_controls_witness :
  Preview.handleCommand threeItems None "next"
    {| Preview.currentIndex := 2; Preview.isPlaying := true;
       Preview.isBlackScreen := false |} =
  Preview.Updated (Preview.handleNext threeItems None
    {| Preview.currentIndex := 2; Preview.isPlaying := true;
       Preview.isBlackScreen := false |}).
Proof.
  refine (proj1 (remote_commands_match_local_controls threeItems None _ _)).
  vm_compute. lia.
Defined.

Lemma previous_undoes_next_witness :
  Preview.handlePrevious threeItems
    (Preview.handleNext threeItems None
       {| Preview.currentIndex := 1; Preview.isPlaying := true;
          Preview.isBlackScreen := false |}) =
  {| Preview.currentIndex := 1; Preview.isPlaying := true;
     Preview.isBlackScreen := false |}.
Proof.
  refine (proj1 (previous_undoes_next threeItems None _ _ _) _).
  - vm_compute. lia.
  - unfold Preview.indexInRange. simpl. lia.
  - right. simpl. lia.
Defined.

Lemma repeated_next_witness :
  Preview.currentIndex
    (Nat.iter 5 (Preview.handleNext threeItems None)
       {| Preview.currentIndex := 0; Preview.isPlaying := true;
          Preview.isBlackScreen := false |}) = 2.
Proof.
  assert (Hne : (0 < length threeItems)%nat) by (vm_compute; lia).
  assert (Hin : Preview.indexInRange threeItems
            {| Preview.currentIndex := 0; Preview.isPlaying := true;
               Preview.isBlackScreen := false |})
    by (unfold Preview.indexInRange; simpl; lia).
  destruct (repeated_next threeItems None _ 5 Hne Hin) as (_ & _ & Hstop).
  destruct (Hstop eq_refl) as (Hi & _). rewrite Hi. reflexivity.
Defined.

(* ===================================================================== *)
(** ** More on the heartbeat watcher *)
(* ===================================================================== *)

Section WatcherFacts.
Import RemoteControl.

Lemma lastTimestamp_snoc evs ev :
  lastTimestamp (evs ++ [ev]) =
  match ev with
  | HeartbeatReceived _ timestamp => Some timestamp
  | PollTick _ => lastTimestamp evs
  end.
Proof. unfold lastTimestamp. rewrite fold_left_app. by destruct ev. Qed.

Lemma run_snoc st evs ev : run st (evs ++ [ev]) = step (run st evs) ev.
Proof. unfold run. by rewrite fold_left_app. Qed.

Lemma no_heartbeat_not_reported evs : lastTimestamp evs = None -> reported evs = false.
Proof.
  destruct evs as [| ev0 evs0] using rev_ind; [done |].
  rewrite lastTimestamp_snoc. unfold reported. rewrite last_snoc, lastTimestamp_snoc.
  destruct ev0 as [? ? | now]; [discriminate |]. by intros ->.
Qed.

Lemma lastTimestamp_stamped evs ts :
  Forall stamped evs -> lastTimestamp evs = Some ts -> ts <> 0.
Proof.
  induction evs as [| ev evs IH] using rev_ind; [done |].
  intros Hall Ets.
  apply Forall_app in Hall as [Hall Hev]. rewrite Forall_singleton in Hev.
  rewrite lastTimestamp_snoc in Ets.
  destruct ev as [? timestamp | ?]; [| by apply IH].
  injection Ets as <-. exact Hev.
Qed.

(** X9.  After any history of heartbeats (with non-zero timestamps) and
    poll ticks, the controller holds the timestamp of the last heartbeat
    and reports what its last event says: active after a heartbeat, and
    after a tick exactly when a heartbeat was received and is younger than
    10 seconds.  Older events do not matter. *)
Theorem watcher_closed_form (evs : list Event) :
  Forall stamped evs ->
  lastHeartbeat (run initialState evs) = lastTimestamp evs /\
  isPreviewActive (run initialState evs) = reported evs /\
  (forall now, isPreviewActive (run initialState (evs ++ [PollTick now])) = true <->
               exists timestamp, lastTimestamp evs = Some timestamp /\
                                 now - timestamp < 10000).
Proof.
  intros Hall.
  assert (Hinv : lastHeartbeat (run initialState evs) = lastTimestamp evs /\
                 isPreviewActive (run initialState evs) = reported evs).
  { induction evs as [| ev evs IH] using rev_ind; [done |].
    apply Forall_app in Hall as [Hall Hev].
    rewrite Forall_singleton in Hev.
    destruct (IH Hall) as [Hhb Hact].
    rewrite run_snoc, lastTimestamp_snoc. unfold reported.
    rewrite last_snoc, lastTimestamp_snoc.
    destruct ev as [receivedAt timestamp | now]; [done |].
    cbn [step]. unfold onPollTick. rewrite Hhb.
    destruct (lastTimestamp evs) as [ts |] eqn:Ets.
    - assert (Hts : ts <> 0) by (by eapply lastTimestamp_stamped).
      rewrite (proj2 (Z.eqb_neq _ _)) by done. done.
    - split; [done |]. rewrite Hact. by apply no_heartbeat_not_reported. }
  destruct Hinv as [Hhb Hact]. split; [done |]. split; [done |].
  intros now. rewrite run_snoc. cbn [step]. unfold onPollTick. rewrite Hhb.
  destruct (lastTimestamp evs) as [ts |] eqn:Ets.
  - assert (Hts : ts <> 0) by (by eapply lastTimestamp_stamped).
    rewrite (proj2 (Z.eqb_neq _ _)) by done. cbn [isPreviewActive].
    rewrite Z.ltb_lt. split; [eauto |]. by intros (? & [= <-] & ?).
  - rewrite Hact, (no_heartbeat_not_reported _ Ets).
    split; [discriminate | by intros (? & [=] & _)].
Qed.

Lemma watcher_closed_form_witness :
  isPreviewActive
    (run initialState [HeartbeatReceived 1700000000120 1700000000000;
                       PollTick 1700000001120;
                       HeartbeatReceived 1700000005130 1700000005000;
                       PollTick 1700000006120]) = true.
Proof.
  refine (eq_trans (proj1 (proj2 (watcher_closed_form _ _))) _).
  - repeat constructor; discriminate.
  - reflexivity.
Defined.
End WatcherFacts.

(* ===================================================================== *)
(** ** More on the realtime services *)
(* ===================================================================== *)

Section ChannelFacts.
Import Realtime Channels.

Ltac unfold_calls :=
  unfold sendCommand, broadcastStatus, sendHeartbeat,
         subscribeToCommands, subscribeToStatus, subscribeToHeartbeat,
         getCommandChannel, getStatusChannel, getHeartbeatChannel,
         awaitSubscribed, subscriptionStatus, supabaseChannel,
         cacheGet, cacheSet, cacheDelete, relayState,
         bind, ret, emit, getWorld, modify, traceOf, valueOf, worldOf.

Ltac split_calls :=
  repeat match goal with
    | |- context [match ?m !! ?k with _ => _ end] =>
        let E := fresh "Hcached" in destruct (m !! k) eqn:E
    | |- context [match ?o with Some _ => _ | None => _ end] => destruct o
    | |- context [decide (?a = ?b)] => destruct (decide (a = b))
    | |- context [match ?a with NoAnswer => _ | _ => _ end] => destruct a
    | |- context [?a <? 5000] => destruct (Z.ltb_spec a 5000)
    | |- context [match ?s with SUBSCRIBED => _ | _ => _ end] => destruct s
    end; cbn [fst snd app].

(** Lookups in a world whose cache [c] was replaced. *)
Lemma cacheOf_setCache_eq c m w : cacheOf c (setCache c m w) = m.
Proof. by destruct c. Qed.

Lemma cacheOf_setCache_ne c c' m w : c <> c' -> cacheOf c' (setCache c m w) = cacheOf c' w.
Proof. by destruct c, c'. Qed.

Lemma cacheOf_freshHandle c w : cacheOf c (freshHandle w) = cacheOf c w.
Proof. by destruct c. Qed.

Lemma nextHandle_setCache c m w : nextHandle (setCache c m w) = nextHandle w.
Proof. by destruct c. Qed.

Lemma touch_lookup c name (f : gmap string RealtimeChannel -> gmap string RealtimeChannel)
    w c' key :
  (forall m k, k <> name -> f m !! k = m !! k) ->
  (c', key) <> (c, name) ->
  cacheOf c' (setCache c (f (cacheOf c w)) w) !! key = cacheOf c' w !! key.
Proof.
  intros Hf Hne.
  destruct c, c'; cbn [cacheOf setCache commandChannels statusChannels
                       heartbeatChannels];
    first [ done | apply Hf; congruence ].
Qed.

Lemma onlyTouches_refl c name w : onlyTouches c name w w.
Proof. by intros ? ? ?. Qed.

Lemma onlyTouches_trans c name w1 w2 w3 :
  onlyTouches c name w1 w2 -> onlyTouches c name w2 w3 -> onlyTouches c name w1 w3.
Proof. intros H12 H23 c' key Hne. by rewrite H23, H12. Qed.

Lemma onlyTouches_insert c name ch w :
  onlyTouches c name w (setCache c (<[name := ch]> (cacheOf c w)) w).
Proof.
  intros c' key Hne. apply (touch_lookup c name (fun m => <[name := ch]> m)); [| done].
  intros m k Hk. by rewrite lookup_insert_ne.
Qed.

Lemma onlyTouches_delete c name w :
  onlyTouches c name w (setCache c (delete name (cacheOf c w)) w).
Proof.
  intros c' key Hne. apply (touch_lookup c name (fun m => delete name m)); [| done].
  intros m k Hk. by rewrite lookup_delete_ne.
Qed.

Lemma onlyTouches_alter c name s w :
  onlyTouches c name w (setCache c (alter (withState s) name (cacheOf c w)) w).
Proof.
  intros c' key Hne.
  apply (touch_lookup c name (fun m => alter (withState s) name m)); [| done].
  intros m k Hk. by rewrite lookup_alter_ne.
Qed.

Lemma onlyTouches_fresh c name w : onlyTouches c name w (freshHandle w).
Proof. intros c' key _. by rewrite cacheOf_freshHandle. Qed.

Ltac touches :=
  repeat match goal with
    | |- onlyTouches _ _ ?w ?w => apply onlyTouches_refl
    | |- onlyTouches ?c ?n ?w (setCache _ (alter _ _ _) ?w') =>
        apply (onlyTouches_trans c n w w'); [| apply onlyTouches_alter]
    | |- onlyTouches ?c ?n ?w (setCache _ (delete _ _) ?w') =>
        apply (onlyTouches_trans c n w w'); [| apply onlyTouches_delete]
    | |- onlyTouches ?c ?n ?w (setCache _ (<[_ := _]> _) ?w') =>
        apply (onlyTouches_trans c n w w'); [| apply onlyTouches_insert]
    | |- onlyTouches ?c ?n ?w (freshHandle ?w') =>
        apply (onlyTouches_trans c n w w'); [| apply onlyTouches_fresh]
    end.

(** X12.  A publish on one slideshow, and a status that the relay
    reports for one handle, change at most the cache entry of that topic:
    every other topic and both other caches are left as they were. *)
Theorem services_touch_only_their_topic (slideshowId command : string)
    (payload : option string) (status : PreviewStatus) (insertedAt sentAt : Z)
    (dbError : option string) (answer : Handshake) (subscribed : SubscribeStatus)
    (w : World) :
  onlyTouches CommandCache (commandChannelName slideshowId) w
    (worldOf (sendCommand slideshowId command payload insertedAt sentAt dbError answer w)) /\
  onlyTouches StatusCache (statusChannelName slideshowId) w
    (worldOf (broadcastStatus slideshowId status sentAt answer w)) /\
  onlyTouches HeartbeatCache (heartbeatChannelName slideshowId) w
    (worldOf (sendHeartbeat slideshowId sentAt answer w)) /\
  (forall c name,
     onlyTouches c name w (worldOf (subscriptionStatus c name subscribed w))).
Proof.
  split; [| split; [| split]]; [.. | intros c name; destruct subscribed];
    unfold_calls; split_calls; touches.
Qed.

Ltac touches_by_lookup name :=
  let c' := fresh "c'" in
  let key := fresh "key" in
  let Hne := fresh "Hne" in
  intros c' key Hne; destruct c';
  cbn [cacheOf setCache freshHandle commandChannels statusChannels heartbeatChannels];
  try reflexivity;
  assert (key <> name) by congruence;
  rewrite ?lookup_alter_ne, ?lookup_insert_ne, ?lookup_delete_ne by done;
  reflexivity.

Ltac fresh_subscription c name w :=
  unfold freshSubscription; unfold_calls;
  destruct (cacheOf c w !! name) eqn:Hold; cbn [fst snd app];
  rewrite ?cacheOf_setCache_eq, ?lookup_delete_eq, ?Hold;
  cbn [fst snd app];
  (split; [| split; [| split; [| touches_by_lookup name]]]);
  rewrite ?cacheOf_setCache_eq, ?cacheOf_freshHandle, ?nextHandle_setCache,
          ?lookup_alter_eq, ?lookup_insert_eq;
  cbn [fmap option_fmap option_map withState handle topic broadcastSelf state
       freshHandle nextHandle];
  rewrite ?nextHandle_setCache; reflexivity.

(** X10.  Each subscriber starts afresh: it unsubscribes and drops the
    handle cached for its topic, if any, creates a new handle, registers
    its listener for the one event of the topic, subscribes, and leaves
    that handle in the cache; no other cache entry changes. *)
Theorem subscribing_starts_afresh (slideshowId : string) (w : World) :
  freshSubscription CommandCache (commandChannelName slideshowId) "command" true w
    (subscribeToCommands slideshowId w) /\
  freshSubscription StatusCache (statusChannelName slideshowId) "status" false w
    (subscribeToStatus slideshowId w) /\
  freshSubscription HeartbeatCache (heartbeatChannelName slideshowId) "heartbeat" false w
    (subscribeToHeartbeat slideshowId w).
Proof.
  split; [| split].
  - fresh_subscription CommandCache (commandChannelName slideshowId) w.
  - fresh_subscription StatusCache (statusChannelName slideshowId) w.
  - fresh_subscription HeartbeatCache (heartbeatChannelName slideshowId) w.
Qed.

Ltac unsubscribe_closure c name w :=
  unfold unsubscribes; unfold_calls;
  destruct (cacheOf c w !! name) eqn:Hold; cbn [fst snd app];
  rewrite ?cacheOf_setCache_eq, ?lookup_delete_eq, ?Hold;
  cbn [fst snd app handle topic];
  intros later;
  (split; [reflexivity |]);
  (split; [by rewrite cacheOf_setCache_eq, lookup_delete_eq |]);
  (split; [touches_by_lookup name |]);
  (split; [by rewrite nextHandle_setCache |]);
  cbn [setCache cacheOf commandChannels statusChannels heartbeatChannels nextHandle];
  by rewrite delete_delete_eq.

(** X11.  The function a subscriber returns unsubscribes the
    subscriber's own handle and empties the cache entry of the topic,
    whichever handle is cached there by then; it creates no handle,
    touches no other entry, and calling it twice leaves the caches as
    calling it once. *)
Theorem unsubscribing_evicts (slideshowId : string) (w : World) :
  unsubscribes CommandCache (commandChannelName slideshowId) (nextHandle w)
    (valueOf (subscribeToCommands slideshowId w)) /\
  unsubscribes StatusCache (statusChannelName slideshowId) (nextHandle w)
    (valueOf (subscribeToStatus slideshowId w)) /\
  unsubscribes HeartbeatCache (heartbeatChannelName slideshowId) (nextHandle w)
    (valueOf (subscribeToHeartbeat slideshowId w)).
Proof.
  split; [| split].
  - unsubscribe_closure CommandCache (commandChannelName slideshowId) w.
  - unsubscribe_closure StatusCache (statusChannelName slideshowId) w.
  - unsubscribe_closure HeartbeatCache (heartbeatChannelName slideshowId) w.
Qed.

(** X15.  Channels are created with [broadcast.self] set exactly on the
    command topic: every handle that the command service creates receives
    its own broadcasts, no handle of the status and heartbeat services
    does. *)
Theorem echo_only_on_the_command_channel (slideshowId command : string)
    (payload : option string) (status : PreviewStatus) (insertedAt sentAt : Z)
    (dbError : option string) (answer : Handshake) (w : World) :
  Forall (createsWithSelf true)
    (traceOf (sendCommand slideshowId command payload insertedAt sentAt
                          dbError answer w)) /\
  Forall (createsWithSelf true) (traceOf (subscribeToCommands slideshowId w)) /\
  Forall (createsWithSelf false)
    (traceOf (broadcastStatus slideshowId status sentAt answer w)) /\
  Forall (createsWithSelf false) (traceOf (subscribeToStatus slideshowId w)) /\
  Forall (createsWithSelf false) (traceOf (sendHeartbeat slideshowId sentAt answer w)) /\
  Forall (createsWithSelf false) (traceOf (subscribeToHeartbeat slideshowId w)).
Proof.
  repeat split; unfold_calls; cbn [cacheOf]; split_calls;
    repeat constructor.
Qed.

Ltac second_publish c name w Hkeyed :=
  unfold immediate; unfold_calls;
  destruct (cacheOf c w !! name) as [channel |] eqn:Hold; cbn [fst snd app];
  [ pose proof (Hkeyed c name channel Hold);
    destruct (decide (state channel = joined))
  | cbn [state]; rewrite (decide_False (P := closed = joined)) by discriminate ];
  cbn [fst snd app];
  try match goal with
      | |- context [match ?a with NoAnswer => _ | _ => _ end] =>
          destruct a as [| ? []]
      end; cbn [fst snd app];
  try match goal with
      | |- context [?t <? 5000] => destruct (t <? 5000)
      end; cbn [fst snd app];
  intros Hfirst; try discriminate Hfirst; intros;
  rewrite ?cacheOf_setCache_eq, ?cacheOf_freshHandle, ?lookup_alter_eq,
          ?lookup_insert_eq, ?Hold;
  cbn [fmap option_fmap option_map fst snd app];
  rewrite ?cacheOf_setCache_eq, ?cacheOf_freshHandle, ?lookup_alter_eq,
          ?lookup_insert_eq, ?Hold;
  cbn [fmap option_fmap option_map fst snd app withState state topic handle];
  rewrite ?decide_True by done;
  cbn [fst snd app];
  try match goal with
      | H : topic _ = _ |- _ => rewrite ?H
      end;
  (split; [reflexivity |]); (split; [reflexivity |]);
  eexists _, _; reflexivity.

(** X14.  Once a publish has succeeded, the next publish for the same
    slideshow finds the cached handle joined: it goes out at once as a
    single broadcast, with no new channel and no new subscription,
    whatever the relay would answer, and it leaves the caches as they
    are. *)
Theorem publishing_again_is_immediate (slideshowId : string) (w : World) :
  cacheKeyed w ->
  (forall command payload insertedAt sentAt dbError answer,
     let first := sendCommand slideshowId command payload insertedAt sentAt
                              dbError answer w in
     valueOf first = inl tt ->
     forall command' payload' insertedAt' sentAt' answer',
       immediate (commandChannelName slideshowId) "command" (worldOf first)
         (sendCommand slideshowId command' payload' insertedAt' sentAt' None answer'
                      (worldOf first))) /\
  (forall status sentAt answer,
     let first := broadcastStatus slideshowId status sentAt answer w in
     valueOf first = inl tt ->
     forall status' sentAt' answer',
       immediate (statusChannelName slideshowId) "status" (worldOf first)
         (broadcastStatus slideshowId status' sentAt' answer' (worldOf first))) /\
  (forall sentAt answer,
     let first := sendHeartbeat slideshowId sentAt answer w in
     valueOf first = inl tt ->
     forall sentAt' answer',
       immediate (heartbeatChannelName slideshowId) "heartbeat" (worldOf first)
         (sendHeartbeat slideshowId sentAt' answer' (worldOf first))).
Proof.
  intros Hkeyed. split; [| split].
  - intros command payload insertedAt sentAt dbError answer first. subst first.
    destruct dbError;
      second_publish CommandCache (commandChannelName slideshowId) w Hkeyed.
  - intros status sentAt answer first. subst first.
    second_publish StatusCache (statusChannelName slideshowId) w Hkeyed.
  - intros sentAt answer first. subst first.
    second_publish HeartbeatCache (heartbeatChannelName slideshowId) w Hkeyed.
Qed.

Lemma chars_app (a b : string) :
  String.list_ascii_of_string (a +:+ b) =
  String.list_ascii_of_string a ++ String.list_ascii_of_string b.
Proof. induction a as [| ch a IH]; [done |]. simpl. f_equal. exact IH. Qed.

Lemma chars_inj (a b : string) :
  String.list_ascii_of_string a = String.list_ascii_of_string b -> a = b.
Proof.
  intros H. rewrite <- (String.string_of_list_ascii_of_string a),
              <- (String.string_of_list_ascii_of_string b). by rewrite H.
Qed.

Lemma same_suffix (a b suffix : string) : a +:+ suffix = b +:+ suffix -> a = b.
Proof.
  intros H. apply chars_inj. apply (f_equal String.list_ascii_of_string) in H.
  rewrite !chars_app in H. by apply app_inv_tail in H.
Qed.

(** Two names that end differently over their last [length l2] characters. *)
Lemma other_suffix (a b : string) (l0 l1 l2 : list Ascii.ascii) :
  length l1 = length l2 -> l1 <> l2 ->
  String.list_ascii_of_string a ++ l0 ++ l1 <> String.list_ascii_of_string b ++ l2.
Proof.
  intros Hlen Hne H. rewrite app_assoc in H.
  by apply app_inj_2 in H as [_ ?].
Qed.

(** X13.  The topic names of different slideshows differ, and the
    command, status and heartbeat topics never coincide, whatever the
    slideshow ids are. *)
Theorem topics_are_distinct (a b : string) :
  (commandChannelName a = commandChannelName b -> a = b) /\
  (statusChannelName a = statusChannelName b -> a = b) /\
  (heartbeatChannelName a = heartbeatChannelName b -> a = b) /\
  commandChannelName a <> statusChannelName b /\
  commandChannelName a <> heartbeatChannelName b /\
  statusChannelName a <> heartbeatChannelName b.
Proof.
  unfold commandChannelName, statusChannelName, heartbeatChannelName.
  repeat split; intros H; apply (inj (String.append "slideshow:")) in H.
  - by apply same_suffix in H.
  - by apply same_suffix in H.
  - by apply same_suffix in H.
  - apply (f_equal String.list_ascii_of_string) in H. rewrite !chars_app in H.
    revert H.
    apply (other_suffix a b (String.list_ascii_of_string ":c")
                        (String.list_ascii_of_string "ommands")); [done |].
    discriminate.
  - apply (f_equal String.list_ascii_of_string) in H. rewrite !chars_app in H.
    symmetry in H. revert H.
    apply (other_suffix b a (String.list_ascii_of_string ":")
                        (String.list_ascii_of_string "heartbeat")); [done |].
    discriminate.
  - apply (f_equal String.list_ascii_of_string) in H. rewrite !chars_app in H.
    symmetry in H. revert H.
    apply (other_suffix b a (String.list_ascii_of_string ":he")
                        (String.list_ascii_of_string "artbeat")); [done |].
    discriminate.
Qed.

Lemma topics_are_distinct_witness :
  commandChannelName "show" <> statusChannelName "show" /\
  (commandChannelName "show" = commandChannelName "show" -> "show" = "show").
Proof.
  split.
  - exact (proj1 (proj2 (proj2 (proj2 (topics_are_distinct "show" "show"))))).
  - exact (proj1 (topics_are_distinct "show" "show")).
Defined.

Lemma publishing_again_is_immediate_witness :
  cacheKeyed emptyWorld /\
  immediate (commandChannelName "show") "command"
    (worldOf (sendCommand "show" "next" None 9000 9001 None
                          (Answer 200 SUBSCRIBED) emptyWorld))
    (sendCommand "show" "previous" None 9500 9501 None NoAnswer
       (worldOf (sendCommand "show" "next" None 9000 9001 None
                             (Answer 200 SUBSCRIBED) emptyWorld))).
Proof.
  split; [exact emptyWorld_keyed |].
  exact (proj1 (publishing_again_is_immediate "show" emptyWorld emptyWorld_keyed)
           "next" None 9000 9001 None (Answer 200 SUBSCRIBED) eq_refl
           "previous" None 9500 9501 NoAnswer).
Defined.
End ChannelFacts.

(* ===================================================================== *)
(** ** Debounced calls *)
(* ===================================================================== *)

Section DebounceFacts.
Import Debounce.
Context {Args : Type}.
Variable wait : Z.
Variable timerFirst : Z -> bool.

(** A delay that [setTimeout] takes as it is. *)
Lemma timerDelay_in_range :
  0 <= wait <= 2147483647 -> timerDelay wait = wait.
Proof.
  intros Hwait. unfold timerDelay, toInt32.
  rewrite Z.mod_small by lia. lia.
Qed.

Lemma runCalls_sublist (calls : list (Z * Args)) : forall timeout,
  sublist (runCalls wait timerFirst calls timeout)
          (match timeout with Some pending => [pending] | None => [] end
           ++ delayed (timerDelay wait) calls).
Proof.
  induction calls as [| [now args] rest IH]; intros timeout.
  - cbn [runCalls delayed map]. by rewrite app_nil_r.
  - cbn [runCalls delayed map fst snd].
    specialize (IH (Some (now + timerDelay wait, args))). cbn [app] in IH.
    unfold executedFunction.
    destruct timeout as [[due a] |]; cbn [elapse].
    + destruct ((due <? now) || _); cbn [app].
      * by apply sublist_skip.
      * by apply sublist_cons.
    + done.
Qed.

Lemma runCalls_last (calls : list (Z * Args)) : forall pending,
  last (runCalls wait timerFirst calls (Some pending)) =
  last (pending :: delayed (timerDelay wait) calls).
Proof.
  induction calls as [| [now args] rest IH]; intros [due a]; [done |].
  specialize (IH (now + timerDelay wait, args)).
  unfold delayed in *. cbn [map fst snd].
  rewrite (last_cons (due, a)), <- IH.
  assert (Hsome : is_Some (last (runCalls wait timerFirst rest
                                   (Some (now + timerDelay wait, args))))).
  { rewrite IH, last_cons. destruct (last (map _ rest)); eauto. }
  destruct Hsome as [call Hcall].
  simpl. unfold executedFunction.
  destruct ((due <? now) || _); simpl; rewrite ?last_cons; by rewrite Hcall.
Qed.

Lemma runCalls_within (calls : list (Z * Args)) : forall now args,
  spaced (within (timerDelay wait) timerFirst) ((now, args) :: calls) ->
  runCalls wait timerFirst calls (Some (now + timerDelay wait, args)) =
  match last (delayed (timerDelay wait) ((now, args) :: calls)) with
  | Some call => [call]
  | None => []
  end.
Proof.
  induction calls as [| [now' args'] rest IH]; intros now args Hsp; [done |].
  destruct Hsp as [Hgap Hsp]. cbn [fst] in Hgap.
  cbn [runCalls elapse]. unfold executedFunction.
  assert ((now + timerDelay wait <? now')
          || ((now + timerDelay wait =? now') && timerFirst now') = false) as ->.
  { destruct Hgap as [Hlt | [-> Htie]].
    - rewrite (proj2 (Z.ltb_ge _ _)), (proj2 (Z.eqb_neq _ _)) by lia. done.
    - rewrite Z.ltb_irrefl, Z.eqb_refl, Htie. done. }
  cbn [app]. rewrite (IH now' args' Hsp). unfold delayed. cbn [map fst snd].
  rewrite (last_cons (now + timerDelay wait, args)),
          (last_cons (now' + timerDelay wait, args')).
  by destruct (last (map _ rest)).
Qed.

Lemma runCalls_apart (calls : list (Z * Args)) : forall now args,
  spaced (apart (timerDelay wait) timerFirst) ((now, args) :: calls) ->
  runCalls wait timerFirst calls (Some (now + timerDelay wait, args)) =
  delayed (timerDelay wait) ((now, args) :: calls).
Proof.
  induction calls as [| [now' args'] rest IH]; intros now args Hsp; [done |].
  destruct Hsp as [Hgap Hsp]. cbn [fst] in Hgap.
  cbn [runCalls elapse]. unfold executedFunction.
  assert ((now + timerDelay wait <? now')
          || ((now + timerDelay wait =? now') && timerFirst now') = true) as ->.
  { destruct Hgap as [Hlt | [-> Htie]].
    - by rewrite (proj2 (Z.ltb_lt _ _)) by lia.
    - rewrite Z.ltb_irrefl, Z.eqb_refl, Htie. done. }
  cbn [app]. rewrite (IH now' args' Hsp). done.
Qed.

(** X16.  For a delay [wait] that [setTimeout] takes as it is
    ([0 <= wait <= 2147483647]; a negative delay would count as 0) and
    calls listed in the order they are made: the calls that a debounced
    function lets through are calls it received, each [wait] after it was
    made and in the order they were made, and the last call made is
    always the last one let through.  Of calls that each come less than
    [wait] after the one before, only the last goes through; calls that
    are each more than [wait] apart all go through.  A call made exactly
    [wait] after the one before counts with the first kind when the event
    loop runs it before the timer, with the second kind when the timer
    runs first. *)
Theorem debounce_keeps_the_last_call (calls : list (Z * Args)) :
  0 <= wait <= 2147483647 ->
  spaced Z.le calls ->
  sublist (debounce wait timerFirst calls) (delayed wait calls) /\
  last (debounce wait timerFirst calls) = last (delayed wait calls) /\
  (spaced (within wait timerFirst) calls ->
   debounce wait timerFirst calls = match last (delayed wait calls) with
                                    | Some call => [call]
                                    | None => []
                                    end) /\
  (spaced (apart wait timerFirst) calls ->
   debounce wait timerFirst calls = delayed wait calls).
Proof.
  intros Hwait _. pose proof (timerDelay_in_range Hwait) as Hdelay.
  unfold debounce. split.
  { rewrite <- Hdelay at 2. apply (runCalls_sublist calls None). }
  destruct calls as [| [now args] rest]; [done |].
  cbn [runCalls elapse app]. unfold executedFunction.
  split; [| split].
  - rewrite runCalls_last, Hdelay. cbn [delayed map fst snd].
    by rewrite !last_cons.
  - intros Hsp. rewrite runCalls_within by (by rewrite Hdelay).
    by rewrite Hdelay.
  - intros Hsp. rewrite runCalls_apart by (by rewrite Hdelay).
    by rewrite Hdelay.
Qed.
End DebounceFacts.

(** Three presses within 300 ms of each other: only the last is passed
    on, 300 ms after it was made. *)
Lemma debounce_keeps_the_last_call_witness :
  Debounce.debounce 300 (fun _ => true)
    [(0, "next"); (100, "next"); (250, "previous")] = [(550, "previous")] /\
  Debounce.debounce 300 (fun _ => true)
    [(0, "next"); (300, "next"); (700, "previous")] =
    [(300, "next"); (600, "next"); (1000, "previous")].
Proof.
  split.
  - refine (proj1 (proj2 (proj2 (debounce_keeps_the_last_call 300 (fun _ => true)
              [(0, "next"); (100, "next"); (250, "previous")] _ _))) _).
    + lia.
    + simpl. lia.
    + simpl. unfold Debounce.within. lia.
  - refine (proj2 (proj2 (proj2 (debounce_keeps_the_last_call 300 (fun _ => true)
              [(0, "next"); (300, "next"); (700, "previous")] _ _))) _).
    + lia.
    + simpl. lia.
    + simpl. unfold Debounce.apart. split; [right | split; [left |]]; try done; lia.
Defined.

(* ===================================================================== *)
(** ** Reordering and deleting streams *)
(* ===================================================================== *)

Section StreamFacts.
Import Streams.

Variable slideshowId : string.

Lemma updateOrder_other (id other : string) (newOrder updatedAt : Z) (table : Table) :
  other <> id ->
  updateOrder slideshowId id newOrder updatedAt table !! other = table !! other.
Proof.
  intros Hne. unfold updateOrder, Table in *.
  destruct (table !! id) as [row |]; [| done].
  destruct (decide _); [| done]. by rewrite lookup_insert_ne.
Qed.

Lemma updateOrder_foreign (id other : string) (newOrder updatedAt : Z)
    (table : Table) (row : StreamRow) :
  table !! other = Some row -> slideshow_id row <> slideshowId ->
  updateOrder slideshowId id newOrder updatedAt table !! other = Some row.
Proof.
  intros Hrow Hforeign. destruct (decide (other = id)) as [-> |];
    [| by rewrite updateOrder_other].
  unfold updateOrder. rewrite Hrow. by rewrite decide_False.
Qed.

Lemma updateOrder_own (id : string) (newOrder updatedAt : Z)
    (table : Table) (row : StreamRow) :
  table !! id = Some row -> slideshow_id row = slideshowId ->
  updateOrder slideshowId id newOrder updatedAt table !! id =
  Some {| slideshow_id := slideshow_id row; order := newOrder;
          updated_at := updatedAt |}.
Proof.
  intros Hrow Hown. unfold updateOrder, Table in *. rewrite Hrow, decide_True by done.
  by rewrite lookup_insert_eq.
Qed.

Lemma updateOrder_missing (id other : string) (newOrder updatedAt : Z) (table : Table) :
  table !! other = None ->
  updateOrder slideshowId id newOrder updatedAt table !! other = None.
Proof.
  intros Hnone. destruct (decide (other = id)) as [-> |];
    [| by rewrite updateOrder_other].
  unfold updateOrder. by rewrite Hnone.
Qed.

(** A loop whose requests all succeed and name each row at most once. *)
Lemma reorderLoop_rows (failure : Update -> option string) (updates : list Update) :
  forall table : Table,
  Forall (fun u => failure u = None) updates ->
  NoDup (map update_id updates) ->
  exists table',
    reorderLoop slideshowId failure updates table = (None, table') /\
    (forall u row, u ∈ updates -> table !! update_id u = Some row ->
       slideshow_id row = slideshowId ->
       table' !! update_id u =
       Some {| slideshow_id := slideshow_id row; order := update_order u;
               updated_at := update_updated_at u |}) /\
    (forall id, id ∉ map update_id updates -> table' !! id = table !! id) /\
    (forall id row, table !! id = Some row -> slideshow_id row <> slideshowId ->
       table' !! id = Some row) /\
    (forall id, table !! id = None -> table' !! id = None).
Proof.
  induction updates as [| u rest IH]; intros table Hok Hnodup.
  - exists table. split; [done |]. split; [| done].
    intros u row Hin. by apply elem_of_nil in Hin.
  - apply Forall_cons in Hok as [Hu Hok].
    cbn [map] in Hnodup. apply NoDup_cons in Hnodup as [Hfresh Hnodup].
    cbn [reorderLoop]. rewrite Hu.
    destruct (IH (updateOrder slideshowId (update_id u) (update_order u)
                    (update_updated_at u) table) Hok Hnodup)
      as (table' & Hrun & Hown & Hother & Hforeign & Hmissing).
    exists table'. split; [exact Hrun |]. repeat split.
    + intros u' row Hin Hrow Hmine. apply elem_of_cons in Hin as [-> | Hin].
      * rewrite (Hother _ Hfresh). by apply updateOrder_own.
      * apply Hown; [done | | done]. rewrite updateOrder_other; [done |].
        intros Heq. apply Hfresh. rewrite <- Heq.
        apply list_elem_of_fmap. by exists u'.
    + intros id Hid. cbn [map] in Hid. apply not_elem_of_cons in Hid as [Hne Hid].
      rewrite (Hother _ Hid). by apply updateOrder_other.
    + intros id row Hrow Hnot. apply Hforeign; [| done].
      by apply updateOrder_foreign.
    + intros id Hnone. apply Hmissing. by apply updateOrder_missing.
Qed.

(** The loop stops at the first failing request. *)
Lemma reorderLoop_failure (failure : Update -> option string)
    (before : list Update) (u : Update) (rest : list Update) (error : string) :
  forall table : Table,
  Forall (fun u => failure u = None) before ->
  failure u = Some error ->
  reorderLoop slideshowId failure (before ++ u :: rest) table =
  (Some error, (reorderLoop slideshowId failure before table).2).
Proof.
  induction before as [| b before IH]; intros table Hok Hfail.
  - cbn [app reorderLoop]. by rewrite Hfail.
  - apply Forall_cons in Hok as [Hb Hok]. cbn [app reorderLoop]. rewrite Hb.
    by apply IH.
Qed.

Lemma updatesOf_ids (now : nat -> Z) (streamIds : list string) :
  map update_id (updatesOf now streamIds) = streamIds.
Proof.
  unfold updatesOf. apply list_eq. intros i.
  change (map update_id) with (fmap (M := list) update_id).
  rewrite list_lookup_fmap, list_lookup_imap.
  by destruct (streamIds !! i).
Qed.

Lemma updatesOf_lookup (now : nat -> Z) (streamIds : list string) (i : nat) (id : string) :
  streamIds !! i = Some id ->
  updatesOf now streamIds !! i =
  Some {| update_id := id; update_order := Z.of_nat i; update_updated_at := now i |}.
Proof. intros Hi. unfold updatesOf. by rewrite list_lookup_imap, Hi. Qed.

Lemma updatesOf_split (now : nat -> Z) (streamIds : list string) (k : nat) (id : string) :
  streamIds !! k = Some id ->
  updatesOf now streamIds =
  updatesOf now (take k streamIds) ++
  {| update_id := id; update_order := Z.of_nat k; update_updated_at := now k |}
  :: drop (S k) (updatesOf now streamIds).
Proof.
  intros Hk. pose proof (updatesOf_lookup now _ _ _ Hk) as Hu.
  rewrite <- (take_drop_middle _ _ _ Hu) at 1. f_equal.
  unfold updatesOf. apply list_eq. intros i.
  rewrite list_lookup_imap. destruct (decide (i < k)%nat) as [Hlt | Hge].
  - by rewrite !lookup_take_lt, list_lookup_imap by done.
  - by rewrite !lookup_take_ge by lia.
Qed.

(** X17.  When every request succeeds and no id is listed twice,
    [reorderStreams] gives each listed stream of the slideshow its
    position in the list as [order]; streams that are not listed, and
    streams of other slideshows even when listed, keep their row, and no
    row is created. *)
Theorem reorder_numbers_the_streams (streamIds : list string) (now : nat -> Z)
    (failure : Update -> option string) (table : Table) :
  NoDup streamIds ->
  Forall (fun u => failure u = None) (updatesOf now streamIds) ->
  exists table',
    reorderStreams slideshowId streamIds now failure table = (None, table') /\
    (forall i id row, streamIds !! i = Some id -> table !! id = Some row ->
       slideshow_id row = slideshowId ->
       table' !! id = Some (placed now i row)) /\
    (forall id row, table !! id = Some row ->
       id ∉ streamIds \/ slideshow_id row <> slideshowId ->
       table' !! id = Some row) /\
    (forall id, table !! id = None -> table' !! id = None).
Proof.
  intros Hnodup Hok. unfold reorderStreams.
  destruct (reorderLoop_rows failure (updatesOf now streamIds) table Hok)
    as (table' & Hrun & Hown & Hother & Hforeign & Hmissing).
  { by rewrite updatesOf_ids. }
  exists table'. split; [exact Hrun |]. repeat split.
  - intros i id row Hi Hrow Hmine.
    apply (updatesOf_lookup now) in Hi. apply list_elem_of_lookup_2 in Hi.
    exact (Hown _ row Hi Hrow Hmine).
  - intros id row Hrow [Hnot | Hnot].
    + rewrite Hother; [done |]. by rewrite updatesOf_ids.
    + by apply Hforeign.
  - exact Hmissing.
Qed.

(** X18.  [reorderStreams] is not atomic: when the request at position
    [k] is the first to fail, the error is thrown with the streams before
    [k] already renumbered and the streams from [k] on as they were. *)
Theorem reorder_is_not_atomic (streamIds : list string) (now : nat -> Z)
    (failure : Update -> option string) (table : Table)
    (k : nat) (failing error : string) :
  NoDup streamIds ->
  streamIds !! k = Some failing ->
  Forall (fun u => failure u = None) (updatesOf now (take k streamIds)) ->
  failure {| update_id := failing; update_order := Z.of_nat k;
             update_updated_at := now k |} = Some error ->
  exists table',
    reorderStreams slideshowId streamIds now failure table = (Some error, table') /\
    (forall i id row, (i < k)%nat -> streamIds !! i = Some id ->
       table !! id = Some row -> slideshow_id row = slideshowId ->
       table' !! id = Some (placed now i row)) /\
    (forall i id, (k <= i)%nat -> streamIds !! i = Some id ->
       table' !! id = table !! id).
Proof.
  intros Hnodup Hk Hok Hfail. unfold reorderStreams.
  rewrite (updatesOf_split now _ _ _ Hk).
  rewrite (reorderLoop_failure failure _ _ _ error table Hok Hfail).
  destruct (reorderLoop_rows failure (updatesOf now (take k streamIds)) table Hok)
    as (table' & Hrun & Hown & Hother & _).
  { rewrite updatesOf_ids. eapply sublist_NoDup; [exact Hnodup | apply sublist_take]. }
  rewrite Hrun. exists table'. split; [done |]. split.
  - intros i id row Hlt Hi Hrow Hmine.
    assert (Hi' : take k streamIds !! i = Some id) by by rewrite lookup_take_lt.
    apply (updatesOf_lookup now) in Hi'. apply list_elem_of_lookup_2 in Hi'.
    exact (Hown _ row Hi' Hrow Hmine).
  - intros i id Hge Hi. apply Hother. rewrite updatesOf_ids.
    intros Hin. apply list_elem_of_lookup in Hin as [j Hj].
    assert (j < k)%nat as Hlt.
    { apply lookup_lt_Some in Hj. rewrite length_take in Hj. lia. }
    rewrite lookup_take_lt in Hj by done.
    pose proof (NoDup_lookup _ _ _ _ Hnodup Hi Hj). lia.
Qed.



End StreamFacts.

Lemma reorder_numbers_the_streams_witness :
  exists table',
    Streams.reorderStreams "show" ["b"; "a"; "z"] (fun i => 1000 + Z.of_nat i)
      (fun _ => None) Streams.sampleTable = (None, table') /\
    Streams.order <$> table' !! "b" = Some 0 /\
    Streams.order <$> table' !! "a" = Some 1 /\
    table' !! "z" = Streams.sampleTable !! "z" /\
    table' !! "c" = Streams.sampleTable !! "c".
Proof.
  destruct (reorder_numbers_the_streams "show" ["b"; "a"; "z"]
              (fun i => 1000 + Z.of_nat i) (fun _ => None) Streams.sampleTable)
    as (table' & Hrun & Hplaced & Hkept & _).
  - apply NoDup_ListNoDup. repeat constructor; simpl; intuition discriminate.
  - repeat constructor.
  - exists table'. split; [exact Hrun |]. repeat split.
    + by rewrite (Hplaced 0%nat "b" _ eq_refl eq_refl eq_refl).
    + by rewrite (Hplaced 1%nat "a" _ eq_refl eq_refl eq_refl).
    + rewrite (Hkept "z" _ eq_refl); [done |]. right. discriminate.
    + rewrite (Hkept "c" _ eq_refl); [done |]. left.
      rewrite !elem_of_cons, elem_of_nil. intuition discriminate.
Defined.

Lemma reorder_is_not_atomic_witness :
  exists table',
    Streams.reorderStreams "show" ["b"; "a"; "c"] (fun i => 1000 + Z.of_nat i)
      (fun u => if decide (Streams.update_id u = "a") then Some "network" else None)
      Streams.sampleTable = (Some "network", table') /\
    Streams.order <$> table' !! "b" = Some 0 /\
    table' !! "a" = Streams.sampleTable !! "a" /\
    table' !! "c" = Streams.sampleTable !! "c".
Proof.
  destruct (reorder_is_not_atomic "show" ["b"; "a"; "c"]
              (fun i => 1000 + Z.of_nat i)
              (fun u => if decide (Streams.update_id u = "a")
                        then Some "network" else None)
              Streams.sampleTable 1 "a" "network")
    as (table' & Hrun & Hplaced & Hkept).
  - apply NoDup_ListNoDup. repeat constructor; simpl; intuition discriminate.
  - reflexivity.
  - repeat constructor.
  - reflexivity.
  - exists table'. split; [exact Hrun |]. repeat split.
    + rewrite (Hplaced 0%nat "b" _ ltac:(lia) eq_refl eq_refl eq_refl). done.
    + exact (Hkept 1%nat "a" ltac:(lia) eq_refl).
    + exact (Hkept 2%nat "c" ltac:(lia) eq_refl).
Defined.
